(** * The Hy lexer's semantic actions: a shallow embedding

    Embedded sources:
    - [hy/lex/grammar.py]: [LexException], [emit_dict], [emit_symbol] and the
      grammar base class [HyGrammarBase] ([__init__], [decode_pos],
      [boundaries], [_apply], [emit]);
    - [hy/models/set.py]: [HySet].

    Python objects are modelled by a tagged union, exceptions by an outcome
    type, and the mutable grammar object by an explicit state record. *)

From Stdlib Require Import ZArith Ascii String List Lia Bool.
From stdpp Require Import base list strings gmap sorting.

Import ListNotations.
Local Open Scope string_scope.
Local Open Scope Z_scope.

(** ** Exceptions and outcomes *)

(** [self.input]: the text and the offset the engine has reached. *)
Record input_stream := InputStream {
  data : string;
  position : Z
}.

(** The four fields of a native parse failure, which
    [parsley.ParseError.__init__] stores as given.  The trail is optional. *)
Record parse_error := ParseErrorFields {
  pe_input : input_stream;
  pe_position : Z;
  pe_message : string;
  pe_trail : option (list string)
}.

(** The exceptions the embedded code raises or lets through. *)
Inductive exn :=
| ParseError (e : parse_error)
| LexException (e : parse_error)
| IndexError
| AttributeError
| TypeError
| UnboundLocalError.

(** Result of running a piece of Python: a value, or a raised exception. *)
Inductive outcome (A : Type) :=
| Return (a : A)
| Raise (e : exn).
Arguments Return {A} a.
Arguments Raise {A} e.

#[global] Instance outcome_ret : MRet outcome := fun A a => Return a.

#[global] Instance outcome_bind : MBind outcome := fun A B k m =>
  match m with
  | Return a => k a
  | Raise e => Raise e
  end.

(** ** Python string operations used by the lexer *)

Module PyStr.

Definition star : ascii := "*"%char.
Definition dash : ascii := "-"%char.
Definition underscore : ascii := "_"%char.
Definition newline : ascii := "010"%char.

(** [s.startswith(c)] for a one-character prefix. *)
Definition startswith (s : string) (c : ascii) : bool :=
  match s with
  | EmptyString => false
  | String a _ => Ascii.eqb a c
  end.

(** [s.endswith(c)] for a one-character suffix. *)
Fixpoint endswith (s : string) (c : ascii) : bool :=
  match s with
  | EmptyString => false
  | String a EmptyString => Ascii.eqb a c
  | String _ rest => endswith rest c
  end.

(** [s[:-1]]. *)
Fixpoint drop_last (s : string) : string :=
  match s with
  | EmptyString => EmptyString
  | String _ EmptyString => EmptyString
  | String a rest => String a (drop_last rest)
  end.

(** [s[1:-1]]. *)
Definition slice_1_m1 (s : string) : string :=
  match s with
  | EmptyString => EmptyString
  | String _ rest => drop_last rest
  end.

Definition upper_char (a : ascii) : ascii :=
  let n := nat_of_ascii a in
  if (97 <=? n)%nat && (n <=? 122)%nat then ascii_of_nat (n - 32) else a.

Fixpoint map_chars (f : ascii -> ascii) (s : string) : string :=
  match s with
  | EmptyString => EmptyString
  | String a rest => String (f a) (map_chars f rest)
  end.

(** [s.upper()] on text whose characters are all ASCII.  A character above
    127 is left as it is here, while Python upper-cases letters outside ASCII
    too: on such text this is not the method. *)
Definition upper (s : string) : string := map_chars upper_char s.

(** [c in s] for a one-character needle. *)
Fixpoint contains (c : ascii) (s : string) : bool :=
  match s with
  | EmptyString => false
  | String a rest => Ascii.eqb a c || contains c rest
  end.

(** [s.replace(c, d)] for one-character [c] and [d]. *)
Definition replace (c d : ascii) (s : string) : string :=
  map_chars (fun a => if Ascii.eqb a c then d else a) s.

(** [sep.join(parts)]. *)
Fixpoint join (sep : string) (parts : list string) : string :=
  match parts with
  | [] => ""
  | [p] => p
  | p :: rest => p ++ sep ++ join sep rest
  end.

(** [s.split(c)] for a one-character separator: never empty. *)
Fixpoint split (c : ascii) (s : string) : list string :=
  match s with
  | EmptyString => [""]
  | String a rest =>
      if Ascii.eqb a c then "" :: split c rest
      else match split c rest with
           | [] => [String a ""]
           | line :: lines => String a line :: lines
           end
  end.

End PyStr.

(** ** Integer literals *)

Module PyInt.

Definition digit (a : ascii) : option Z :=
  let n := nat_of_ascii a in
  if (48 <=? n)%nat && (n <=? 57)%nat then Some (Z.of_nat (n - 48)) else None.

(** Accumulates the digits of [s] onto [acc]; [None] on a non-digit. *)
Fixpoint digits (acc : Z) (s : string) : option Z :=
  match s with
  | EmptyString => Some acc
  | String a rest =>
      match digit a with
      | Some d => digits (10 * acc + d) rest
      | None => None
      end
  end.

Definition unsigned (s : string) : option Z :=
  match s with
  | EmptyString => None
  | _ => digits 0 s
  end.

(** Modelled from the spec: the conversion [HyInteger(obj)] performs
    ([hy/models/integer.py] is not part of the sources).  The whole token
    must be an integer literal: an optional sign followed by one or more
    decimal digits; a numeric prefix does not match. *)
Definition parse (s : string) : option Z :=
  match s with
  | String "-" rest => Z.opp <$> unsigned rest
  | String "+" rest => unsigned rest
  | _ => unsigned s
  end.

Definition digit_char (d : Z) : ascii := ascii_of_nat (48 + Z.to_nat d).

Fixpoint repr_digits (fuel : nat) (n : Z) (acc : string) : string :=
  match fuel with
  | O => acc
  | S fuel' =>
      let acc' := String (digit_char (n mod 10)) acc in
      if n <? 10 then acc' else repr_digits fuel' (n / 10) acc'
  end.

(** [repr(n)] of a Python integer: decimal digits, with a leading minus for
    negatives. *)
Definition repr (n : Z) : string :=
  if n <? 0
  then String "-" (repr_digits (S (Z.to_nat (Z.log2 (- n)))) (- n) "")
  else repr_digits (S (Z.to_nat (Z.log2 n))) n "".

End PyInt.

(** ** Python objects *)

(** Source extent of a model: the four attributes [emit] assigns. *)
Record span := Span {
  start_line : Z;
  start_column : Z;
  end_line : Z;
  end_column : Z
}.

(** Modelled from the spec: the model classes of [hy/models/] other than
    [HySet] are not part of the sources.  A model node is a tagged union
    whose variants carry a payload and a source extent that is absent until
    it is assigned; raw captured text is a plain [str] and the top level is a
    plain [list], neither of which takes attributes. *)
#[warnings="-register-all"]
Inductive value :=
| PyStr (s : string)
| PyList (items : list value)
| HyInteger (n : Z) (at_ : option span)
| HySymbol (name : string) (at_ : option span)
| HyString (text : string) (at_ : option span)
| HyList (items : list value) (at_ : option span)
| HyExpression (items : list value) (at_ : option span)
| HyDict (entries : list (value * value)) (at_ : option span).

(** The characters of an object that is text: a [str], or a symbol or string
    model, which are built on [str]. *)
Definition text_of (v : value) : option string :=
  match v with
  | PyStr s | HySymbol s _ | HyString s _ => Some s
  | _ => None
  end.

(** Whether an object has a hash, so that it can be a dictionary key or be
    looked up in one.  Text and integers have; lists and dictionaries have
    none, and neither have the list, expression and dictionary models
    built on them. *)
Definition hashable (v : value) : bool :=
  match v with
  | PyStr _ | HyInteger _ _ | HySymbol _ _ | HyString _ _ => true
  | PyList _ | HyList _ _ | HyExpression _ _ | HyDict _ _ => false
  end.

(** [==] between hashable objects, which is all a dictionary applies it
    to: text compares by its characters, whatever the class, and integers
    by their number; the source extent is an attribute and takes no
    part. *)
Definition value_eqb (x y : value) : bool :=
  match x, y with
  | HyInteger n _, HyInteger m _ => Z.eqb n m
  | _, _ =>
      match text_of x, text_of y with
      | Some s, Some t => String.eqb s t
      | _, _ => false
      end
  end.

(** [ret.start_line, ret.start_column = start; ret.end_line, ret.end_column
    = end]: built-in [str] and [list] objects refuse the first assignment. *)
Definition set_span (ret : value) (bounds : (Z * Z) * (Z * Z)) : outcome value :=
  let '((sl, sc), (el, ec)) := bounds in
  let sp := Some (Span sl sc el ec) in
  match ret with
  | PyStr _ | PyList _ => Raise AttributeError
  | HyInteger n _ => Return (HyInteger n sp)
  | HySymbol s _ => Return (HySymbol s sp)
  | HyString s _ => Return (HyString s sp)
  | HyList l _ => Return (HyList l sp)
  | HyExpression l _ => Return (HyExpression l sp)
  | HyDict d _ => Return (HyDict d sp)
  end.

(** ** Python dictionaries and iterators *)

Section PyDict.
Context {K V : Type}.
(** [==] on keys. *)
Variable key_eq : K -> K -> bool.

(** [d[k] = v]: an existing entry keeps its key object and its place. *)
Fixpoint setitem (d : list (K * V)) (k : K) (v : V) : list (K * V) :=
  match d with
  | [] => [(k, v)]
  | (k', v') :: rest =>
      if key_eq k' k then (k', v) :: rest else (k', v') :: setitem rest k v
  end.

(** [d.get(k)]. *)
Fixpoint getitem (d : list (K * V)) (k : K) : option V :=
  match d with
  | [] => None
  | (k', v') :: rest => if key_eq k' k then Some v' else getitem rest k
  end.

(** One pair taken in by [dict(pairs)]. *)
Definition step (d : list (K * V)) (kv : K * V) : list (K * V) :=
  setitem d (fst kv) (snd kv).

(** [dict(pairs)]: the pairs are inserted from left to right. *)
Definition dict (pairs : list (K * V)) : list (K * V) :=
  fold_left step pairs [].

(** Whether a key equal to [k] is among [acc]. *)
Definition known (acc : list K) (k : K) : bool :=
  existsb (fun k' => key_eq k' k) acc.

(** The keys of [ks] with every later repetition of a key left out. *)
Fixpoint distinct (ks : list K) : list K :=
  match ks with
  | [] => []
  | k :: rest =>
      k :: List.filter (fun k' => negb (key_eq k k')) (distinct rest)
  end.
End PyDict.

Section Iterators.
Context {A : Type}.

(** An iterator over a list is the list of items not yet produced. *)
Definition iter (contents : list A) : list A := contents.

(** [next(it)]: the item and the advanced iterator, [None] on
    [StopIteration]. *)
Definition next (it : list A) : option (A * list A) :=
  match it with
  | [] => None
  | a :: it' => Some (a, it')
  end.

(** [zip(it, it)] with both arguments the same iterator: each round draws
    twice from the one cursor and stops as soon as a draw fails. *)
Fixpoint zip_same (it : list A) : list (A * A) :=
  match it with
  | [] => []
  | a :: it1 =>
      match it1 with
      | [] => []
      | b :: it2 => (a, b) :: zip_same it2
      end
  end.
End Iterators.

(** ** [emit_dict] *)

Section EmitDict.
(** The objects of [contents], taken from a type of hashable objects. *)
Context {A R : Type}.
(** [==] on the objects of [contents]. *)
Variable key_eq : A -> A -> bool.
(** The class [HyDict], built from a dictionary. *)
Variable HyDict' : list (A * A) -> R.

Definition emit_dict (contents : list A) : outcome R :=
  let it := iter contents in
  Return (HyDict' (dict key_eq (zip_same it))).
End EmitDict.

(** ** [emit_symbol] *)

Definition table : gmap string string :=
  {[ "true" := "True"; "false" := "False"; "null" := "None" ]}.

(** Lines 73-74: a token wrapped in stars, other than the lone star, loses
    them and is upper-cased. *)
Definition unwrap_earmuffs (obj : string) : string :=
  if PyStr.startswith obj PyStr.star
     && PyStr.endswith obj PyStr.star
     && negb (String.eqb obj "*")
  then PyStr.upper (PyStr.slice_1_m1 obj)
  else obj.

(** Lines 76-77: dashes become underscores, except in the lone dash. *)
Definition mangle_dashes (obj : string) : string :=
  if PyStr.contains PyStr.dash obj && negb (String.eqb obj "-")
  then PyStr.replace PyStr.dash PyStr.underscore obj
  else obj.

Definition emit_symbol (contents : list string) : outcome value :=
  match contents with
  | [] => Raise IndexError
  | obj :: _ =>
      match PyInt.parse obj with
      | Some n => Return (HyInteger n None)
      | None =>
          match table !! obj with
          | Some name => Return (HySymbol name None)
          | None =>
              let obj := unwrap_earmuffs obj in
              let obj := mangle_dashes obj in
              Return (HySymbol obj None)
          end
      end
  end.

(** ** The grammar object *)

(** The state of a [HyGrammarBase] instance. *)
Record grammar := Grammar {
  input : input_stream;
  linecounts : list Z;
  curpos : list Z
}.

(** The loop of [__init__]: the running total after each line, each line
    counted with its newline. *)
Fixpoint count_lines (counter : Z) (lines : list string) : list Z :=
  match lines with
  | [] => []
  | line :: rest =>
      let counter := counter + (Z.of_nat (String.length line) + 1) in
      counter :: count_lines counter rest
  end.

(** Every line with its newline, summed: what the counter reaches. *)
Fixpoint total (lines : list string) : Z :=
  match lines with
  | [] => 0
  | line :: rest => Z.of_nat (String.length line) + 1 + total rest
  end.

(** [HyGrammarBase.__init__] on a fresh input. *)
Definition init (text : string) : grammar :=
  {| input := InputStream text 0;
     linecounts := count_lines 0 (PyStr.split PyStr.newline text);
     curpos := [] |}.

(** The property [pos]. *)
Definition pos (self : grammar) : Z := position (input self).

(** The loop of [decode_pos].  [lineNo] is unbound until the first
    iteration; [i] is the index [enumerate] is about to hand out. *)
Fixpoint decode_loop (p : Z) (i : Z) (lineNo : option Z) (prevcount : Z)
    (counts : list Z) : option Z * Z :=
  match counts with
  | [] => (lineNo, prevcount)
  | count :: rest =>
      if p <? count then (Some i, prevcount)
      else decode_loop p (i + 1) (Some i) count rest
  end.

Definition decode_pos (self : grammar) (p : Z) : outcome (Z * Z) :=
  match decode_loop p 0 None 0 (linecounts self) with
  | (None, _) => Raise UnboundLocalError
  | (Some lineNo, prevcount) => Return (lineNo + 1, p - prevcount + 1)
  end.

(** The property [boundaries]. *)
Definition boundaries (self : grammar) : outcome ((Z * Z) * (Z * Z)) :=
  let end_ := pos self - 1 in
  match last (curpos self) with
  | None => Raise IndexError
  | Some top =>
      start ← decode_pos self top;
      stop ← decode_pos self end_;
      Return (start, stop)
  end.

(** [self.curpos.append(p)]. *)
Definition push (self : grammar) (p : Z) : grammar :=
  {| input := input self; linecounts := linecounts self;
     curpos := curpos self ++ [p] |}.

(** [self.curpos.pop()], which fails on an empty list. *)
Definition pop (self : grammar) : option grammar :=
  match curpos self with
  | [] => None
  | _ => Some {| input := input self; linecounts := linecounts self;
                 curpos := removelast (curpos self) |}
  end.

(** [HyGrammarBase._apply] around an arbitrary rule body: the body is what
    [super()._apply] runs.  The [finally] clause pops on both exits and lets
    the body's result or exception through. *)
Definition apply_around (body : grammar -> outcome value * grammar)
    (self : grammar) : outcome value * grammar :=
  let self1 := push self (pos self) in
  let '(ret, self2) := body self1 in
  match pop self2 with
  | None => (Raise IndexError, self2)
  | Some self3 => (ret, self3)
  end.

(** ** Errors *)

(** [LexException.__init__]: the four arguments go to the parent
    constructor unchanged; [trail] defaults to [None]. *)
Definition LexException_init (input : input_stream) (position : Z)
    (message : string) (trail : option (list string)) : exn :=
  LexException (ParseErrorFields input position message trail).

(** The interpreter the code runs on; the two lines of Python differ in the
    attributes an exception object offers. *)
Inductive python :=
| Python2
| Python3.

(** [pe.message] on an error of the parsing engine.  The engine's
    constructor hands the position and the message to [Exception.__init__]
    and keeps the message under the name [error]: it sets no attribute
    [message].  On Python 2 every exception has one all the same, which is
    empty unless the exception was built from one argument; on Python 3
    there is none and the access raises. *)
Definition attr_message (py : python) (pe : parse_error) : outcome string :=
  match py with
  | Python2 => Return ""
  | Python3 => Raise AttributeError
  end.

(** [pe.trail]: the engine's constructor stores [trail or []]. *)
Definition attr_trail (pe : parse_error) : option (list string) :=
  Some (default [] (pe_trail pe)).

(** [LexException.from_parseerror]: the arguments are read off [pe] from
    left to right, then the constructor is called. *)
Definition from_parseerror (py : python) (pe : parse_error) : outcome exn :=
  let input := pe_input pe in
  let position := pe_position pe in
  message ← attr_message py pe;
  let trail := attr_trail pe in
  Return (LexException_init input position message trail).

(** The fields an exception object carries, when it is a parse failure. *)
Definition fields (e : exn) : option parse_error :=
  match e with
  | ParseError f | LexException f => Some f
  | _ => None
  end.

(** Exception classes. *)
Inductive pyclass :=
| cls_Exception
| cls_ParseError
| cls_HyError
| cls_LexException
| cls_IndexError
| cls_AttributeError
| cls_TypeError
| cls_UnboundLocalError.

#[global] Instance pyclass_eq_dec : EqDecision pyclass.
Proof. solve_decision. Defined.

Definition class_of (e : exn) : pyclass :=
  match e with
  | ParseError _ => cls_ParseError
  | LexException _ => cls_LexException
  | IndexError => cls_IndexError
  | AttributeError => cls_AttributeError
  | TypeError => cls_TypeError
  | UnboundLocalError => cls_UnboundLocalError
  end.

(** The direct base classes.  [LexException] lists [parsley.ParseError] and
    [HyError], as its class statement does; [HyError], the library's general
    error class, and the others derive from [Exception]. *)
Definition bases (c : pyclass) : list pyclass :=
  match c with
  | cls_Exception => []
  | cls_LexException => [cls_ParseError; cls_HyError]
  | _ => [cls_Exception]
  end.

(** [issubclass(c, d)], searching the bases to the given depth. *)
Fixpoint issubclass_upto (depth : nat) (c d : pyclass) : bool :=
  bool_decide (c = d) ||
  match depth with
  | O => false
  | S depth' => existsb (fun b => issubclass_upto depth' b d) (bases c)
  end.

Definition issubclass (c d : pyclass) : bool := issubclass_upto 3 c d.

(** Whether [except handler:] catches [e]. *)
Definition catches (handler : pyclass) (e : exn) : bool :=
  issubclass (class_of e) handler.

(** ** [HyGrammarBase.emit] *)

(** [emit_symbol] on objects.  Only the first item is looked at.  Text,
    which is what the grammar captures for an identifier, goes through
    [emit_symbol] by its characters; an integer converts at once; a list
    or a dictionary fails the conversion and then the lookup in the table,
    which hashes it. *)
Definition emit_symbol_value (contents : list value) : outcome value :=
  match contents with
  | [] => emit_symbol []
  | obj :: _ =>
      match text_of obj with
      | Some s => emit_symbol [s]
      | None =>
          match obj with
          | HyInteger n _ => Return (HyInteger n None)
          | _ => Raise TypeError
          end
      end
  end.

(** [emit_dict] on objects: [dict()] hashes every key it takes in, and a
    key without a hash makes it raise [TypeError].  An item left over by the
    pairing is never hashed. *)
Definition emit_dict_value (contents : list value) : outcome value :=
  if forallb hashable (map fst (zip_same (iter contents)))
  then emit_dict value_eqb (fun d => HyDict d None) contents
  else Raise TypeError.

(** Modelled from the spec: the [string] entry, which unpacks the contents
    into the arguments of [HyString], a class that is not part of the
    sources: the captured text becomes a string model unchanged. *)
Definition HyString_star (contents : list value) : outcome value :=
  match contents with
  | [PyStr s] => Return (HyString s None)
  | _ => Raise TypeError
  end.

(** The class attribute [HyGrammarBase.dispatch]. *)
Definition dispatch : gmap string (list value -> outcome value) :=
  {[ "dict" := emit_dict_value;
     "identifier" := emit_symbol_value;
     "list" := (fun contents => Return (HyList contents None));
     "parens" := (fun contents => Return (HyExpression contents None));
     "root" := (fun contents => Return (PyList contents));
     "string" := HyString_star ]}.

Section Emit.
(** [self.dispatch]: a subclass may supply its own table. *)
Variable dispatch : gmap string (list value -> outcome value).

(** What [emit] does once the constructor is found. *)
Definition emit_with (self : grammar) (fun_ : list value -> outcome value)
    (contents : list value) : outcome value :=
  ret ← fun_ contents;
  match (bounds ← boundaries self; set_span ret bounds) with
  | Return ret' => Return ret'
  | Raise AttributeError => Return ret
  | Raise e => Raise e
  end.

Definition emit (self : grammar) (kind : string) (contents : list value)
    : outcome value :=
  match dispatch !! kind with
  | None =>
      Raise (LexException_init (input self) (position (input self))
               ("Unimplemented atom type " ++ kind) None)
  | Some fun_ => emit_with self fun_ contents
  end.
End Emit.

(** ** Rule application *)

(** Rule bodies as the parsing engine runs them.  The engine is an external
    library; what matters here is that it moves the input offset, raises,
    backtracks over a failed alternative without touching [curpos], applies
    nested rules through the overridden [_apply], and runs semantic actions
    that call [emit], which reads the top of [curpos]. *)
Inductive rule :=
| Token (width : nat) (result : value)
| Fail (e : exn)
| Seq (first second : rule)
| Choice (first second : rule)
| Apply (r : rule)
| Emit (kind : string) (contents : list value).

Definition advance (self : grammar) (n : nat) : grammar :=
  {| input := InputStream (data (input self)) (pos self + Z.of_nat n);
     linecounts := linecounts self; curpos := curpos self |}.

(** Backtracking restores the input of [before] and nothing else. *)
Definition rewind (before after : grammar) : grammar :=
  {| input := input before; linecounts := linecounts after;
     curpos := curpos after |}.

Definition is_parse_failure (e : exn) : bool :=
  match e with
  | ParseError _ | LexException _ => true
  | _ => false
  end.

Fixpoint run (r : rule) (self : grammar) : outcome value * grammar :=
  match r with
  | Token n v => (Return v, advance self n)
  | Fail e => (Raise e, self)
  | Seq r1 r2 =>
      match run r1 self with
      | (Return _, self1) => run r2 self1
      | (Raise e, self1) => (Raise e, self1)
      end
  | Choice r1 r2 =>
      match run r1 self with
      | (Return v, self1) => (Return v, self1)
      | (Raise e, self1) =>
          if is_parse_failure e then run r2 (rewind self self1)
          else (Raise e, self1)
      end
  | Apply r' => apply_around (run r') self
  | Emit kind contents => (emit dispatch self kind contents, self)
  end.

Definition _apply (r : rule) (self : grammar) : outcome value * grammar :=
  apply_around (run r) self.

(** ** [HySet] *)

Section HySet.
Context {T : Type} `{EqDecision T}.
(** The order [sorted] compares by. *)
Variable le : relation T.
Context `{!RelDecision le}.

(** [sorted(items)]. *)
Definition sorted (items : list T) : list T := merge_sort le items.

(** Truth value of a list. *)
Definition truthy (r : list T) : bool :=
  match r with [] => false | _ => true end.

(** [lambda r, v: v in r and r or r+[v]]. *)
Definition keep (r : list T) (v : T) : list T :=
  if bool_decide (v ∈ r)
  then (if truthy r then r else r ++ [v])
  else r ++ [v].

(** [HySet.__init__]: the list the object ends up holding. *)
Definition HySet (items : list T) : list T :=
  let items := sorted items in
  let items := fold_left keep items [] in
  items.

(** [HySet.__repr__]. *)
Definition HySet_repr (repr : T -> string) (self : list T) : string :=
  ("#{" ++ PyStr.join " " (map repr self) ++ "}")%string.

(** The specification's wording of the second step: an element is kept
    only if it differs from the last kept element. *)
Definition keep_if_new_last (r : list T) (v : T) : list T :=
  match last r with
  | Some u => if bool_decide (u = v) then r else r ++ [v]
  | None => r ++ [v]
  end.

Definition dedup_adjacent (items : list T) : list T :=
  fold_left keep_if_new_last items [].
End HySet.

(** ** Auxiliary notions for stating properties *)

(** [s.count(c)] for a one-character needle. *)
Fixpoint count_char (c : ascii) (s : string) : nat :=
  match s with
  | EmptyString => O
  | String a rest => ((if Ascii.eqb a c then 1 else 0) + count_char c rest)%nat
  end.

(** Whether a character is ASCII. *)
Definition is_ascii (a : ascii) : bool := (nat_of_ascii a <? 128)%nat.

(** Whether a character is one of the letters [str.upper] changes. *)
Definition lower_case (a : ascii) : bool :=
  let n := nat_of_ascii a in (97 <=? n)%nat && (n <=? 122)%nat.

(** Positions compared as Python compares tuples: by line, then by column. *)
Definition pos_le (a b : Z * Z) : Prop :=
  fst a < fst b \/ (fst a = fst b /\ snd a <= snd b).

(** The pairs of a dictionary's contents laid out flat again. *)
Definition flatten {A : Type} (pairs : list (A * A)) : list A :=
  flat_map (fun kv => [fst kv; snd kv]) pairs.

(** * Properties *)

(** ** The symbol mangler *)

Lemma table_lookup (t : string) :
  table !! t =
    if bool_decide (t = "true") then Some "True"
    else if bool_decide (t = "false") then Some "False"
    else if bool_decide (t = "null") then Some "None"
    else None.
Proof.
  unfold table.
  repeat case_bool_decide; subst; try reflexivity.
  rewrite !lookup_insert_ne by congruence.
  apply lookup_singleton_ne. congruence.
Qed.

Lemma table_miss (t : string) :
  t <> "true" -> t <> "false" -> t <> "null" -> table !! t = None.
Proof.
  intros H1 H2 H3. rewrite table_lookup.
  rewrite !bool_decide_eq_false_2 by assumption. reflexivity.
Qed.

Lemma emit_symbol_plain (t : string) :
  PyInt.parse t = None -> table !! t = None ->
  emit_symbol [t] = Return (HySymbol (mangle_dashes (unwrap_earmuffs t)) None).
Proof. intros Hp Ht. unfold emit_symbol. rewrite Hp, Ht. reflexivity. Qed.

Lemma digits_all_digits (s : string) :
  forall acc n, PyInt.digits acc s = Some n ->
  Forall (fun c => is_Some (PyInt.digit c)) (list_ascii_of_string s).
Proof.
  induction s as [|c s IH]; intros acc n H; simpl in *.
  - constructor.
  - destruct (PyInt.digit c) as [d|] eqn:Hd; [|discriminate].
    constructor; [rewrite Hd; eauto | eapply IH; eassumption].
Qed.

Lemma unsigned_all_digits (s : string) (n : Z) :
  PyInt.unsigned s = Some n ->
  s <> "" /\ Forall (fun c => is_Some (PyInt.digit c)) (list_ascii_of_string s).
Proof.
  destruct s as [|c s]; [discriminate|]. intros H. split; [discriminate|].
  eapply digits_all_digits. exact H.
Qed.

(** The characters of a token past an optional leading sign. *)
Lemma parse_full_token (t : string) (n : Z) :
  PyInt.parse t = Some n ->
  exists body,
    (t = body \/ t = String "-" body \/ t = String "+" body) /\
    body <> "" /\
    Forall (fun c => is_Some (PyInt.digit c)) (list_ascii_of_string body).
Proof.
  intros H. unfold PyInt.parse in H.
  destruct t as [|c rest]; [discriminate|].
  destruct (Ascii.eqb_spec c "-") as [->|Hm].
  - destruct (PyInt.unsigned rest) as [m|] eqn:Hu; [|discriminate].
    exists rest. split; [auto|]. eapply unsigned_all_digits; eassumption.
  - destruct (Ascii.eqb_spec c "+") as [->|Hp].
    + exists rest. split; [auto|]. eapply unsigned_all_digits; eassumption.
    + assert (Hu : PyInt.unsigned (String c rest) = Some n).
      { destruct c as [[] [] [] [] [] [] [] []]; try exact H; congruence. }
      exists (String c rest). split; [auto|].
      eapply unsigned_all_digits; eassumption.
Qed.

(** C3.  The integer check comes first and decides the variant: a token
    that converts to an integer [n] yields the Integer node of value [n],
    whatever else it might match, and every other token yields a Symbol
    node.  The conversion takes the whole token: past an optional sign,
    every character of a converting token is a decimal digit, so a numeric
    prefix such as the one of [12a] does not make an integer. *)
Theorem emit_symbol_integer_first (t : string) :
  match PyInt.parse t with
  | Some n =>
      emit_symbol [t] = Return (HyInteger n None) /\
      exists body,
        (t = body \/ t = String "-" body \/ t = String "+" body) /\
        body <> "" /\
        Forall (fun c => is_Some (PyInt.digit c)) (list_ascii_of_string body)
  | None => exists name, emit_symbol [t] = Return (HySymbol name None)
  end /\
  emit_symbol ["42"] = Return (HyInteger 42 None) /\
  emit_symbol ["-7"] = Return (HyInteger (-7) None) /\
  emit_symbol ["12a"] = Return (HySymbol "12a" None).
Proof.
  split; [|repeat split; reflexivity].
  destruct (PyInt.parse t) as [n|] eqn:Hp.
  - split; [unfold emit_symbol; rewrite Hp; reflexivity|].
    eapply parse_full_token; eassumption.
  - unfold emit_symbol. rewrite Hp.
    destruct (table !! t) as [name|]; eauto.
Qed.

(** C8.  The three reserved words are replaced by [True], [False] and
    [None]; a token different from all three is not looked up successfully,
    and, unless it is an integer, comes out as the symbol its own text
    mangles to.  The comparison is exact and case-sensitive: [TRUE] and
    [Null] stay as they are. *)
Theorem emit_symbol_reserved_words (t : string) :
  emit_symbol ["true"] = Return (HySymbol "True" None) /\
  emit_symbol ["false"] = Return (HySymbol "False" None) /\
  emit_symbol ["null"] = Return (HySymbol "None" None) /\
  (t <> "true" -> t <> "false" -> t <> "null" ->
     table !! t = None /\
     (PyInt.parse t = None ->
      emit_symbol [t] =
        Return (HySymbol (mangle_dashes (unwrap_earmuffs t)) None))) /\
  emit_symbol ["TRUE"] = Return (HySymbol "TRUE" None) /\
  emit_symbol ["Null"] = Return (HySymbol "Null" None) /\
  emit_symbol ["truex"] = Return (HySymbol "truex" None).
Proof.
  repeat split; try reflexivity.
  - apply table_miss; assumption.
  - intros Hp. apply emit_symbol_plain; [assumption|].
    apply table_miss; assumption.
Qed.

Lemma emit_symbol_reserved_words_witness :
  table !! "nil-value" = None /\
  emit_symbol ["nil-value"] = Return (HySymbol "nil_value" None).
Proof.
  destruct (emit_symbol_reserved_words "nil-value") as (_ & _ & _ & H & _).
  destruct H as [Hm He]; try discriminate.
  split; [exact Hm|]. apply He. reflexivity.
Defined.

(** C2.  The examples of the specification, and the order of the two
    steps: a token that is neither an integer nor a reserved word has its
    earmuffs removed first and its dashes replaced afterwards.  The lone
    star and the lone dash are left alone by the step that would otherwise
    apply to them; [*-*] shows the order, since unwrapping leaves the lone
    dash, which is then kept. *)
Theorem emit_symbol_earmuffs_then_dashes (t : string) :
  emit_symbol ["*foo*"] = Return (HySymbol "FOO" None) /\
  emit_symbol ["*"] = Return (HySymbol "*" None) /\
  emit_symbol ["foo-bar"] = Return (HySymbol "foo_bar" None) /\
  emit_symbol ["-"] = Return (HySymbol "-" None) /\
  emit_symbol ["*foo-bar*"] = Return (HySymbol "FOO_BAR" None) /\
  emit_symbol ["*-*"] = Return (HySymbol "-" None) /\
  unwrap_earmuffs "*" = "*" /\
  mangle_dashes "-" = "-" /\
  (PyInt.parse t = None -> table !! t = None ->
   emit_symbol [t] = Return (HySymbol (mangle_dashes (unwrap_earmuffs t)) None)).
Proof.
  repeat split; try reflexivity.
  apply emit_symbol_plain.
Qed.

Lemma emit_symbol_earmuffs_then_dashes_witness :
  emit_symbol ["*a-b*"] = Return (HySymbol "A_B" None).
Proof.
  destruct (emit_symbol_earmuffs_then_dashes "*a-b*")
    as (_ & _ & _ & _ & _ & _ & _ & _ & H).
  apply H; reflexivity.
Defined.

(** ** Pairing the contents of a dictionary *)

Section PairingFacts.
Context {A : Type}.

Lemma pair_ind (P : list A -> Prop) :
  P [] -> (forall a, P [a]) -> (forall a b l, P l -> P (a :: b :: l)) ->
  forall l, P l.
Proof.
  intros H0 H1 H2.
  assert (H : forall l, P l /\ forall a, P (a :: l)).
  { induction l as [|b l [IH1 IH2]]; split; auto. }
  intros l. apply H.
Qed.

(** Each round of [zip_same] is two draws from the one iterator. *)
Lemma zip_same_next (it : list A) :
  zip_same it =
    match next it with
    | None => []
    | Some (a, it1) =>
        match next it1 with
        | None => []
        | Some (b, it2) => (a, b) :: zip_same it2
        end
    end.
Proof. destruct it as [|a [|b it2]]; reflexivity. Qed.

Lemma zip_same_length (contents : list A) :
  length (zip_same contents) = (length contents / 2)%nat.
Proof.
  induction contents as [|a|a b l IH] using pair_ind; try reflexivity.
  change (length (a :: b :: l)) with (S (S (length l))).
  replace (S (S (length l))) with (length l + 1 * 2)%nat by lia.
  rewrite Nat.div_add by lia.
  cbn [zip_same length]. rewrite IH. lia.
Qed.

Lemma zip_same_lookup (contents : list A) (i : nat) (k v : A) :
  zip_same contents !! i = Some (k, v) <->
  contents !! (2 * i)%nat = Some k /\ contents !! (2 * i + 1)%nat = Some v.
Proof.
  revert i.
  induction contents as [|a|a b l IH] using pair_ind; intros i.
  - split; [intros H | intros [H _]]; simpl in H; discriminate.
  - split; [intros H; simpl in H; discriminate|].
    intros [_ H]. replace (2 * i + 1)%nat with (S (2 * i)) in H by lia.
    simpl in H. discriminate.
  - destruct i as [|i].
    + simpl. split; [intros [= -> ->]; auto | intros [[= ->] [= ->]]; auto].
    + replace (2 * S i)%nat with (S (S (2 * i))) by lia.
      replace (S (S (2 * i)) + 1)%nat with (S (S (2 * i + 1))) by lia.
      cbn [zip_same lookup list_lookup]. apply IH.
Qed.

Lemma zip_same_drop_trailing (contents : list A) :
  Nat.Odd (length contents) ->
  zip_same contents = zip_same (removelast contents).
Proof.
  induction contents as [|a|a b l IH] using pair_ind; intros Hodd.
  - destruct Hodd as [n Hn]. simpl in Hn. lia.
  - reflexivity.
  - assert (Hl : Nat.Odd (length l)).
    { destruct Hodd as [n Hn]. simpl in Hn. exists (n - 1)%nat. lia. }
    destruct l as [|c l'].
    { destruct Hl as [n Hn]. simpl in Hn. lia. }
    change (removelast (a :: b :: c :: l')) with (a :: b :: removelast (c :: l')).
    change (zip_same (a :: b :: c :: l'))
      with ((a, b) :: zip_same (c :: l')).
    change (zip_same (a :: b :: removelast (c :: l')))
      with ((a, b) :: zip_same (removelast (c :: l'))).
    rewrite (IH Hl). reflexivity.
Qed.
End PairingFacts.

(** The [dict] entry of the table hashes the keys of the complete pairs and
    nothing else. *)
Lemma emit_dict_value_hashable (contents : list value) :
  forallb hashable (map fst (zip_same (iter contents))) = true ->
  emit_dict_value contents =
    Return (HyDict (dict value_eqb (zip_same (iter contents))) None).
Proof. intros H. unfold emit_dict_value. rewrite H. reflexivity. Qed.

Lemma emit_dict_value_drop_trailing (contents : list value) :
  Nat.Odd (length contents) ->
  emit_dict_value contents = emit_dict_value (removelast contents).
Proof.
  intros Hodd. unfold emit_dict_value, emit_dict, iter.
  rewrite (zip_same_drop_trailing contents Hodd). reflexivity.
Qed.

(** C1.  On contents of odd length [emit_dict] returns normally; the
    dictionary is built from the pairs of neighbours taken in input order
    (pair [i] is made of items [2i] and [2i+1], and there are as many pairs
    as the length halves, rounded down), and the result is the one obtained
    without the trailing item.  Five items [a b c d e] give the dictionary
    of [a:b] and [c:d], also through [emit] with kind [dict], which adds the
    source extent.  On objects the keys of the complete pairs have to be
    hashable, as for any dictionary: a key that is not makes [dict()] raise
    [TypeError] whatever the length, while the trailing item is dropped
    unhashed, so that the outcome on an odd length is always the outcome
    without the trailing item. *)
Theorem emit_dict_odd_length {A R : Type} (key_eq : A -> A -> bool)
    (HyDict' : list (A * A) -> R) (contents : list A) (a b c d e : A) :
  (Nat.Odd (length contents) ->
   exists pairs,
     emit_dict key_eq HyDict' contents = Return (HyDict' (dict key_eq pairs)) /\
     length pairs = ((length contents - 1) / 2)%nat /\
     (forall i k v,
        pairs !! i = Some (k, v) <->
        contents !! (2 * i)%nat = Some k /\
        contents !! (2 * i + 1)%nat = Some v) /\
     emit_dict key_eq HyDict' contents =
       emit_dict key_eq HyDict' (removelast contents)) /\
  emit_dict key_eq HyDict' [a; b; c; d; e] =
    Return (HyDict' (dict key_eq [(a, b); (c, d)])) /\
  (forall (self : grammar) (u v w x y : value) sl sc el ec,
     boundaries self = Return ((sl, sc), (el, ec)) ->
     hashable u = true -> hashable w = true ->
     emit dispatch self "dict" [u; v; w; x; y] =
       Return (HyDict (dict value_eqb [(u, v); (w, x)])
                 (Some (Span sl sc el ec)))) /\
  (forall (self : grammar) (objects : list value),
     Nat.Odd (length objects) ->
     emit dispatch self "dict" objects =
       emit dispatch self "dict" (removelast objects)) /\
  (forall (self : grammar) (objects : list value) i k v,
     objects !! (2 * i)%nat = Some k ->
     objects !! (2 * i + 1)%nat = Some v ->
     hashable k = false ->
     emit dispatch self "dict" objects = Raise TypeError).
Proof.
  assert (Hentry : dispatch !! "dict" = Some emit_dict_value) by reflexivity.
  split; [|split; [reflexivity|split; [|split]]].
  2:{ intros self u v w x y sl sc el ec Hb Hu Hw.
      unfold emit. rewrite Hentry. unfold emit_with.
      rewrite emit_dict_value_hashable
        by (cbn [iter zip_same map fst forallb]; rewrite Hu, Hw; reflexivity).
      cbn [iter zip_same mbind outcome_bind].
      rewrite Hb. reflexivity. }
  2:{ intros self objects Hodd. unfold emit. rewrite Hentry. unfold emit_with.
      rewrite (emit_dict_value_drop_trailing objects Hodd). reflexivity. }
  2:{ intros self objects i k v Hk Hv Hh.
      unfold emit. rewrite Hentry. unfold emit_with, emit_dict_value.
      assert (Hin : k ∈ map fst (zip_same (iter objects))).
      { apply list_elem_of_fmap. exists (k, v). split; [reflexivity|].
        apply list_elem_of_lookup. exists i. apply zip_same_lookup. auto. }
      destruct (forallb hashable (map fst (zip_same (iter objects)))) eqn:Hf;
        [|reflexivity].
      rewrite forallb_forall in Hf. apply list_elem_of_In in Hin.
      rewrite (Hf k Hin) in Hh. discriminate. }
  intros Hodd. exists (zip_same contents).
  split; [reflexivity|]. split; [|split].
  - rewrite zip_same_length. destruct Hodd as [n Hn]. rewrite Hn.
    replace (2 * n + 1 - 1)%nat with (n * 2)%nat by lia.
    rewrite Nat.div_mul by lia.
    replace (2 * n + 1)%nat with (1 + n * 2)%nat by lia.
    rewrite Nat.div_add by lia. reflexivity.
  - intros i k v. apply zip_same_lookup.
  - unfold emit_dict, iter. rewrite (zip_same_drop_trailing contents Hodd).
    reflexivity.
Qed.

Lemma emit_dict_odd_length_witness :
  emit_dict Z.eqb (fun d => d) [1; 10; 2; 20; 3] =
    emit_dict Z.eqb (fun d => d) [1; 10; 2; 20] /\
  emit_dict Z.eqb (fun d => d) [1; 10; 2; 20; 3] =
    Return [(1, 10); (2, 20)] /\
  emit dispatch (advance (push (init "{a 1 b}") 0) 7) "dict"
    [HySymbol "a" None; HyInteger 1 None; HyList [] None] =
    Return (HyDict [(HySymbol "a" None, HyInteger 1 None)]
              (Some (Span 1 1 1 7))) /\
  emit dispatch (advance (push (init "{[] 1 b}") 0) 8) "dict"
    [HyList [] None; HyInteger 1 None; HySymbol "b" None] = Raise TypeError.
Proof.
  destruct (emit_dict_odd_length Z.eqb (fun d => d) [1; 10; 2; 20; 3] 1 10 2 20 3)
    as (H & E & _ & Hdrop' & Hraise).
  destruct H as (pairs & _ & _ & _ & Hdrop).
  - exists 2%nat. reflexivity.
  - split; [exact Hdrop|]. split; [exact E|]. split.
    + rewrite Hdrop' by (exists 1%nat; reflexivity). reflexivity.
    + apply (Hraise _ _ 0%nat (HyList [] None) (HyInteger 1 None));
        reflexivity.
Defined.

(** ** Dictionaries built from pairs *)

Section DictFacts.
Context {K V : Type}.
Variable key_eq : K -> K -> bool.
Hypothesis key_eq_refl : forall k, key_eq k k = true.
Hypothesis key_eq_sym : forall k k', key_eq k k' = key_eq k' k.
Hypothesis key_eq_trans :
  forall k1 k2 k3, key_eq k1 k2 = true -> key_eq k2 k3 = true ->
                   key_eq k1 k3 = true.

Lemma key_eq_congr (k1 k2 k : K) :
  key_eq k1 k2 = true -> key_eq k1 k = key_eq k2 k.
Proof.
  intros H12.
  destruct (key_eq k1 k) eqn:H1, (key_eq k2 k) eqn:H2; try reflexivity.
  - rewrite key_eq_sym in H12.
    rewrite (key_eq_trans _ _ _ H12 H1) in H2. discriminate.
  - rewrite (key_eq_trans _ _ _ H12 H2) in H1. discriminate.
Qed.

Lemma getitem_setitem (d : list (K * V)) (k k' : K) (v : V) :
  getitem key_eq (setitem key_eq d k v) k' =
    if key_eq k k' then Some v else getitem key_eq d k'.
Proof.
  induction d as [|[k0 v0] rest IH]; simpl.
  - reflexivity.
  - destruct (key_eq k0 k) eqn:H0; simpl.
    + rewrite (key_eq_congr _ _ k' H0).
      destruct (key_eq k k'); reflexivity.
    + rewrite IH.
      destruct (key_eq k0 k') eqn:H0'; [|reflexivity].
      destruct (key_eq k k') eqn:Hk; [|reflexivity].
      rewrite key_eq_sym in Hk.
      rewrite (key_eq_trans _ _ _ H0' Hk) in H0. discriminate.
Qed.

Lemma getitem_fold_other (pairs d : list (K * V)) (k : K) :
  Forall (fun kv => key_eq (fst kv) k = false) pairs ->
  getitem key_eq (fold_left (step key_eq) pairs d) k = getitem key_eq d k.
Proof.
  revert d. induction pairs as [|[k0 v0] rest IH]; intros d Hall; simpl.
  - reflexivity.
  - inversion Hall as [|? ? H0 Hrest]; subst. simpl in H0.
    rewrite (IH _ Hrest). unfold step. simpl.
    rewrite getitem_setitem, H0. reflexivity.
Qed.

(** The value found under a key is the one of the last pair with it. *)
Lemma getitem_dict_last (before after : list (K * V)) (ki k : K) (vi : V) :
  key_eq ki k = true ->
  Forall (fun kv => key_eq (fst kv) k = false) after ->
  getitem key_eq (dict key_eq (before ++ (ki, vi) :: after)) k = Some vi.
Proof.
  intros Hk Hafter. unfold dict.
  rewrite fold_left_app. simpl.
  rewrite (getitem_fold_other _ _ _ Hafter).
  unfold step at 1. simpl. rewrite getitem_setitem, Hk. reflexivity.
Qed.

Lemma keys_setitem (d : list (K * V)) (k : K) (v : V) :
  map fst (setitem key_eq d k v) =
    if known key_eq (map fst d) k then map fst d else (map fst d ++ [k])%list.
Proof.
  induction d as [|[k0 v0] rest IH]; simpl.
  - reflexivity.
  - destruct (key_eq k0 k) eqn:H0; simpl.
    + reflexivity.
    + rewrite IH. destruct (known key_eq (map fst rest) k); reflexivity.
Qed.

Lemma known_app (acc : list K) (k x : K) :
  negb (known key_eq (acc ++ [k])%list x) = negb (known key_eq acc x) && negb (key_eq k x).
Proof.
  unfold known. rewrite existsb_app. simpl.
  rewrite orb_false_r, negb_orb. reflexivity.
Qed.

Lemma known_congr (acc : list K) (k x : K) :
  known key_eq acc k = true -> key_eq k x = true -> known key_eq acc x = true.
Proof.
  unfold known. rewrite !existsb_exists.
  intros (k' & Hin & Hk') Hx. exists k'. split; [exact Hin|].
  eapply key_eq_trans; eassumption.
Qed.

Lemma filter_twice {X : Type} (f g : X -> bool) (l : list X) :
  List.filter f (List.filter g l) = List.filter (fun x => f x && g x) l.
Proof.
  induction l as [|x l IH]; simpl; [reflexivity|].
  destruct (g x); simpl; rewrite ?andb_true_r, ?andb_false_r.
  - destruct (f x); rewrite IH; reflexivity.
  - exact IH.
Qed.

(** The keys of a dictionary built from pairs, in insertion order. *)
Lemma keys_fold (pairs d : list (K * V)) :
  map fst (fold_left (step key_eq) pairs d) =
    (map fst d ++
     List.filter (fun x => negb (known key_eq (map fst d) x))
       (distinct key_eq (map fst pairs)))%list.
Proof.
  revert d. induction pairs as [|[k v] rest IH]; intros d; simpl.
  - rewrite app_nil_r. reflexivity.
  - rewrite IH.
    assert (Hs : map fst (step key_eq d (k, v)) =
                 if known key_eq (map fst d) k then map fst d
                 else (map fst d ++ [k])%list)
      by (unfold step; simpl; apply keys_setitem).
    rewrite Hs. clear Hs.
    destruct (known key_eq (map fst d) k) eqn:Hk; simpl.
    + f_equal. rewrite filter_twice. apply List.filter_ext. intros x.
      destruct (known key_eq (map fst d) x) eqn:Hx; simpl; [reflexivity|].
      destruct (key_eq k x) eqn:Hkx; [|reflexivity].
      rewrite (known_congr _ _ _ Hk Hkx) in Hx. discriminate.
    + rewrite <- app_assoc. simpl. do 2 f_equal.
      rewrite filter_twice. apply List.filter_ext. intros x.
      apply known_app.
Qed.

Lemma keys_dict (pairs : list (K * V)) :
  map fst (dict key_eq pairs) = distinct key_eq (map fst pairs).
Proof.
  unfold dict.
  rewrite keys_fold. simpl.
  induction (distinct key_eq (map fst pairs)) as [|x l IH]; simpl;
    [reflexivity | rewrite IH; reflexivity].
Qed.

Lemma length_dict (pairs : list (K * V)) :
  length (dict key_eq pairs) = length (distinct key_eq (map fst pairs)).
Proof. rewrite <- keys_dict, length_map. reflexivity. Qed.

Lemma length_distinct_le (ks : list K) :
  (length (distinct key_eq ks) <= length ks)%nat.
Proof.
  induction ks as [|k rest IH]; simpl; [lia|].
  pose proof (List.filter_length_le
                (fun k' => negb (key_eq k k')) (distinct key_eq rest)).
  lia.
Qed.

Lemma distinct_repr (ks : list K) (x : K) :
  In x ks -> exists y, In y (distinct key_eq ks) /\ key_eq y x = true.
Proof.
  induction ks as [|k rest IH]; simpl; [tauto|].
  intros [->|Hin].
  - exists x. auto.
  - destruct (IH Hin) as (y & Hy & Hyx).
    destruct (key_eq k y) eqn:Hky.
    + exists k. split; [auto|]. eapply key_eq_trans; eassumption.
    + exists y. split; [|exact Hyx]. right.
      apply List.filter_In. rewrite Hky. auto.
Qed.

Lemma filter_drops {X : Type} (f : X -> bool) (l : list X) (y : X) :
  In y l -> f y = false -> (length (List.filter f l) < length l)%nat.
Proof.
  induction l as [|x l IH]; simpl; [tauto|].
  intros [->|Hin] Hy.
  - rewrite Hy. pose proof (List.filter_length_le f l). lia.
  - specialize (IH Hin Hy). destruct (f x); simpl; lia.
Qed.

(** A repeated key makes the distinct keys fewer than the keys. *)
Lemma distinct_shorter (ks : list K) (i j : nat) (ki kj : K) :
  (i < j)%nat -> ks !! i = Some ki -> ks !! j = Some kj ->
  key_eq ki kj = true ->
  (length (distinct key_eq ks) < length ks)%nat.
Proof.
  revert i j. induction ks as [|k rest IH]; intros i j Hij Hi Hj Heq.
  - discriminate.
  - destruct j as [|j]; [lia|]. simpl in Hj.
    cbn [distinct length].
    pose proof (length_distinct_le rest) as Hle.
    pose proof (List.filter_length_le
                  (fun k' => negb (key_eq k k')) (distinct key_eq rest)) as Hf.
    destruct i as [|i].
    + simpl in Hi. injection Hi as ->.
      assert (Hin : In kj rest).
      { apply list_elem_of_In, list_elem_of_lookup. eauto. }
      destruct (distinct_repr rest kj Hin) as (y & Hy & Hykj).
      assert (Hky : key_eq ki y = true).
      { eapply key_eq_trans; [exact Heq|]. rewrite key_eq_sym. exact Hykj. }
      pose proof (filter_drops (fun k' => negb (key_eq ki k')) _ y Hy) as Hd.
      simpl in Hd. rewrite Hky in Hd. specialize (Hd eq_refl). lia.
    + simpl in Hi. specialize (IH i j ltac:(lia) Hi Hj Heq). lia.
Qed.
End DictFacts.

(** C10.  With [==] an equivalence on keys, the dictionary [emit_dict]
    builds answers a lookup with the value of the last complete pair whose
    key equals the one looked up, so a later pair overrides an earlier one
    with the same key; its size is the number of distinct keys in key
    position, which a repeated key makes smaller than the number of
    pairs. *)
Theorem emit_dict_last_key_wins {A R : Type} (key_eq : A -> A -> bool)
    (HyDict' : list (A * A) -> R) (contents : list A) :
  (forall k, key_eq k k = true) ->
  (forall k k', key_eq k k' = key_eq k' k) ->
  (forall k1 k2 k3, key_eq k1 k2 = true -> key_eq k2 k3 = true ->
                    key_eq k1 k3 = true) ->
  exists d,
    emit_dict key_eq HyDict' contents = Return (HyDict' d) /\
    (forall i ki vi k,
       contents !! (2 * i)%nat = Some ki ->
       contents !! (2 * i + 1)%nat = Some vi ->
       key_eq ki k = true ->
       (forall j kj vj,
          (i < j)%nat ->
          contents !! (2 * j)%nat = Some kj ->
          contents !! (2 * j + 1)%nat = Some vj ->
          key_eq kj k = false) ->
       getitem key_eq d k = Some vi) /\
    length d = length (distinct key_eq (map fst (zip_same contents))) /\
    (forall i j ki vi kj vj,
       (i < j)%nat ->
       contents !! (2 * i)%nat = Some ki ->
       contents !! (2 * i + 1)%nat = Some vi ->
       contents !! (2 * j)%nat = Some kj ->
       contents !! (2 * j + 1)%nat = Some vj ->
       key_eq ki kj = true ->
       (length d < length contents / 2)%nat).
Proof.
  intros Hrefl Hsym Htrans.
  exists (dict key_eq (zip_same contents)).
  split; [reflexivity|]. split; [|split].
  - intros i ki vi k Hki Hvi Hk Hlater.
    assert (Hp : zip_same contents !! i = Some (ki, vi))
      by (apply zip_same_lookup; auto).
    rewrite <- (take_drop_middle _ _ _ Hp).
    apply getitem_dict_last; try assumption.
    apply Forall_lookup. intros j' [kj vj] Hj'.
    rewrite lookup_drop in Hj'. apply zip_same_lookup in Hj' as [Hkj Hvj].
    simpl. eapply (Hlater (S i + j')%nat); [lia | exact Hkj | exact Hvj].
  - apply length_dict; assumption.
  - intros i j ki vi kj vj Hij Hki Hvi Hkj Hvj Heq.
    rewrite length_dict by assumption.
    rewrite <- zip_same_length, <- (length_map fst (zip_same contents)).
    assert (Hi : (fst <$> zip_same contents) !! i = Some ki).
    { rewrite list_lookup_fmap.
      rewrite (proj2 (zip_same_lookup contents i ki vi) (conj Hki Hvi)).
      reflexivity. }
    assert (Hj : (fst <$> zip_same contents) !! j = Some kj).
    { rewrite list_lookup_fmap.
      rewrite (proj2 (zip_same_lookup contents j kj vj) (conj Hkj Hvj)).
      reflexivity. }
    eapply distinct_shorter; eassumption.
Qed.

Lemma emit_dict_last_key_wins_witness :
  exists d,
    emit_dict Z.eqb (fun d => d) [1; 10; 2; 20; 1; 30] = Return d /\
    getitem Z.eqb d 1 = Some 30 /\
    (length d < 3)%nat.
Proof.
  destruct (emit_dict_last_key_wins Z.eqb (fun d => d) [1; 10; 2; 20; 1; 30])
    as (d & He & Hget & _ & Hlt).
  - intros k. apply Z.eqb_refl.
  - intros k k'. apply Z.eqb_sym.
  - intros k1 k2 k3 H12 H23. apply Z.eqb_eq.
    apply Z.eqb_eq in H12. apply Z.eqb_eq in H23. lia.
  - exists d. split; [exact He|]. split.
    + apply (Hget 2%nat 1 30 1); try reflexivity.
      intros j kj vj Hj Hkj _.
      destruct j as [|[|[|j]]]; try lia.
      replace (2 * S (S (S j)))%nat with (6 + 2 * j)%nat in Hkj by lia.
      simpl in Hkj. discriminate.
    + apply (Hlt 0%nat 2%nat 1 10 1 30); try reflexivity. lia.
Defined.

(** ** The node dispatcher *)

(** The error [emit] raises for a kind it has no constructor for. *)
Lemma emit_missing (table : gmap string (list value -> outcome value))
    (self : grammar) (kind : string) (contents : list value) :
  table !! kind = None ->
  emit table self kind contents =
    Raise (LexException
             {| pe_input := input self;
                pe_position := pos self;
                pe_message := "Unimplemented atom type " ++ kind;
                pe_trail := None |}).
Proof. intros H. unfold emit. rewrite H. reflexivity. Qed.

Lemma dispatch_lookup_None (kind : string) :
  kind ∉ ["dict"; "identifier"; "list"; "parens"; "root"; "string"] ->
  dispatch !! kind = None.
Proof.
  rewrite !not_elem_of_cons. intros (H1 & H2 & H3 & H4 & H5 & H6 & _).
  unfold dispatch. rewrite !lookup_insert_ne by congruence.
  apply lookup_singleton_ne. congruence.
Qed.

Lemma dispatch_lookup_Some (kind : string) :
  kind ∈ ["dict"; "identifier"; "list"; "parens"; "root"; "string"] ->
  is_Some (dispatch !! kind).
Proof.
  rewrite !elem_of_cons, elem_of_nil.
  intros [->|[->|[->|[->|[->|[->|[]]]]]]]; vm_compute; eauto.
Qed.

Lemma decode_pos_raises (self : grammar) (p : Z) (e : exn) :
  decode_pos self p = Raise e -> e = UnboundLocalError.
Proof.
  unfold decode_pos.
  destruct (decode_loop p 0 None 0 (linecounts self)) as [[lineNo|] prev];
    congruence.
Qed.

Lemma boundaries_raises (self : grammar) (e : exn) :
  boundaries self = Raise e -> is_parse_failure e = false.
Proof.
  unfold boundaries. destruct (last (curpos self)) as [top|]; [|intros [= <-]; reflexivity].
  destruct (decode_pos self top) as [start|e1] eqn:H1; cbn [mbind outcome_bind].
  - destruct (decode_pos self (pos self - 1)) as [stop|e2] eqn:H2;
      cbn [mbind outcome_bind]; [discriminate|].
    intros [= <-]. apply decode_pos_raises in H2 as ->. reflexivity.
  - intros [= <-]. apply decode_pos_raises in H1 as ->. reflexivity.
Qed.

Lemma set_span_raises (ret : value) bounds (e : exn) :
  set_span ret bounds = Raise e -> e = AttributeError.
Proof.
  destruct bounds as [[sl sc] [el ec]]. destruct ret; cbn [set_span]; congruence.
Qed.

(** Past the lookup, [emit] raises what the constructor raises or what
    reading the boundaries raises. *)
Lemma emit_with_raises (self : grammar) (fun_ : list value -> outcome value)
    (contents : list value) (e : exn) :
  (forall e', fun_ contents = Raise e' -> is_parse_failure e' = false) ->
  emit_with self fun_ contents = Raise e -> is_parse_failure e = false.
Proof.
  intros Hfun. unfold emit_with.
  destruct (fun_ contents) as [ret|e0]; cbn [mbind outcome_bind].
  - destruct (boundaries self) as [bounds|e1] eqn:Hb; cbn [mbind outcome_bind].
    + destruct (set_span ret bounds) as [ret'|e2] eqn:Hs; [discriminate|].
      apply set_span_raises in Hs as ->. discriminate.
    + pose proof (boundaries_raises self e1 Hb) as H1.
      destruct e1; try discriminate; intros [= <-]; reflexivity.
  - intros [= <-]. apply Hfun. reflexivity.
Qed.

(** None of the six constructors raises a parse failure. *)
Lemma dispatch_entries_raise (kind : string)
    (fun_ : list value -> outcome value) (contents : list value) (e : exn) :
  dispatch !! kind = Some fun_ -> fun_ contents = Raise e ->
  is_parse_failure e = false.
Proof.
  intros Hf.
  destruct (decide (kind ∈ ["dict"; "identifier"; "list"; "parens"; "root";
                            "string"])) as [Hin|Hout].
  - rewrite !elem_of_cons, elem_of_nil in Hin.
    unfold dispatch in Hf.
    destruct Hin as [->|[->|[->|[->|[->|[->|[]]]]]]];
      repeat (rewrite lookup_insert_ne in Hf by discriminate);
      first [rewrite lookup_insert_eq in Hf | rewrite lookup_singleton_eq in Hf];
      injection Hf as <-; intros Hraise.
    + unfold emit_dict_value in Hraise.
      destruct (forallb hashable (map fst (zip_same (iter contents))));
        [discriminate | injection Hraise as <-; reflexivity].
    + unfold emit_symbol_value, emit_symbol in Hraise.
      destruct contents as [|obj rest];
        [injection Hraise as <-; reflexivity|].
      destruct (text_of obj) as [s|].
      * destruct (PyInt.parse s); [discriminate|].
        destruct (table !! s); discriminate.
      * destruct obj; try discriminate; injection Hraise as <-; reflexivity.
    + discriminate.
    + discriminate.
    + discriminate.
    + destruct contents as [|[] [|? ?]]; cbn in Hraise; try discriminate;
        injection Hraise as <-; reflexivity.
  - rewrite (dispatch_lookup_None kind Hout) in Hf. discriminate.
Qed.

(** C4.  A kind outside the six of the table has no entry, and [emit]
    raises the lexer's exception with the grammar's input, the current
    offset, the message naming the kind and no trail; this holds for any
    table and any missing kind.  A kind among the six has an entry, and
    [emit] goes on to the constructor instead of raising at the lookup:
    whatever it raises then is not the lexer's exception. *)
Theorem emit_unimplemented_atom (self : grammar) (kind : string)
    (contents : list value) :
  (kind ∉ ["dict"; "identifier"; "list"; "parens"; "root"; "string"] ->
   dispatch !! kind = None /\
   emit dispatch self kind contents =
     Raise (LexException
              {| pe_input := input self;
                 pe_position := position (input self);
                 pe_message := "Unimplemented atom type " ++ kind;
                 pe_trail := None |})) /\
  (kind ∈ ["dict"; "identifier"; "list"; "parens"; "root"; "string"] ->
   (exists fun_,
      dispatch !! kind = Some fun_ /\
      emit dispatch self kind contents = emit_with self fun_ contents) /\
   (forall e, emit dispatch self kind contents = Raise e ->
              class_of e <> cls_LexException)) /\
  (forall table : gmap string (list value -> outcome value),
     table !! kind = None ->
     exists e,
       emit table self kind contents = Raise e /\
       class_of e = cls_LexException /\
       fields e = Some {| pe_input := input self;
                          pe_position := position (input self);
                          pe_message := "Unimplemented atom type " ++ kind;
                          pe_trail := None |}) /\
  emit dispatch self "unknown_kind" [] =
    Raise (LexException
             {| pe_input := input self;
                pe_position := position (input self);
                pe_message := "Unimplemented atom type unknown_kind";
                pe_trail := None |}).
Proof.
  split; [|split; [|split]].
  - intros Hout. pose proof (dispatch_lookup_None kind Hout) as Hnone.
    split; [exact Hnone|]. apply emit_missing. exact Hnone.
  - intros Hin. destruct (dispatch_lookup_Some kind Hin) as [fun_ Hf].
    assert (He : emit dispatch self kind contents =
                 emit_with self fun_ contents)
      by (unfold emit; rewrite Hf; reflexivity).
    split; [exists fun_; auto|].
    intros e Hraise. rewrite He in Hraise.
    apply emit_with_raises in Hraise.
    + destruct e; simpl in *; congruence.
    + intros e'. apply (dispatch_entries_raise kind). exact Hf.
  - intros table Hnone. eexists. split; [apply emit_missing; exact Hnone|].
    split; reflexivity.
  - apply emit_missing. reflexivity.
Qed.

Lemma emit_unimplemented_atom_witness :
  emit dispatch (init "(set 1)") "set" [HyInteger 1 None] =
    Raise (LexException
             {| pe_input := InputStream "(set 1)" 0;
                pe_position := 0;
                pe_message := "Unimplemented atom type set";
                pe_trail := None |}) /\
  exists fun_,
    dispatch !! "root" = Some fun_ /\
    emit dispatch (init "(set 1)") "root" [HyInteger 1 None] =
      emit_with (init "(set 1)") fun_ [HyInteger 1 None].
Proof.
  split.
  - destruct (emit_unimplemented_atom (init "(set 1)") "set" [HyInteger 1 None])
      as [H _].
    apply H. rewrite !not_elem_of_cons. repeat split; try discriminate.
    apply not_elem_of_nil.
  - destruct (emit_unimplemented_atom (init "(set 1)") "root" [HyInteger 1 None])
      as (_ & H & _).
    apply H. rewrite !elem_of_cons. auto 10.
Defined.

(** ** The error translator *)

(** C9.  [from_parseerror] asks the native error for an attribute
    [message], which the engine's errors do not set: they keep their text
    under [error].  On Python 3 the access raises [AttributeError] and no
    lexer exception is built; on Python 2 the attribute is the empty text,
    so the lexer exception has the input, the position and the trail of
    the native error and an empty message, never the native one.  The
    class relation holds: a lexer exception, once built, is caught by a
    handler for the library's general error class. *)
Theorem from_parseerror_message_lost (pe : parse_error) :
  from_parseerror Python3 pe = Raise AttributeError /\
  (exists e f,
     from_parseerror Python2 pe = Return e /\
     class_of e = cls_LexException /\
     fields e = Some f /\
     pe_input f = pe_input pe /\
     pe_position f = pe_position pe /\
     attr_trail f = attr_trail pe /\
     pe_message f = "" /\
     catches cls_HyError e = true /\
     catches cls_ParseError e = true) /\
  (forall py e f,
     from_parseerror py pe = Return e -> fields e = Some f ->
     pe_message pe <> "" -> pe_message f <> pe_message pe) /\
  issubclass cls_LexException cls_HyError = true /\
  from_parseerror Python2
    (ParseErrorFields (InputStream "(foo" 4) 4 "expected a closing paren" None) =
    Return (LexException
              (ParseErrorFields (InputStream "(foo" 4) 4 "" (Some []))).
Proof.
  split; [reflexivity|]. split; [|split; [|split; reflexivity]].
  - eexists _, _. repeat split.
  - intros [|] e f He Hf Hne; [|discriminate].
    cbn in He. injection He as <-. cbn in Hf. injection Hf as <-.
    cbn. congruence.
Qed.

(** ** Decoding offsets *)

Section DecodeFacts.

Lemma last_cons_default (x prev : Z) (l : list Z) :
  default prev (last (x :: l)) = default x (last l).
Proof. rewrite last_cons. destruct (last l); reflexivity. Qed.

(** The loop stops at the first count above the offset. *)
Lemma decode_loop_break (p : Z) (before after : list Z) (c : Z) :
  forall i lineNo prev,
  Forall (fun x => x <= p) before -> p < c ->
  decode_loop p i lineNo prev (before ++ c :: after) =
    (Some (i + Z.of_nat (length before)), default prev (last before)).
Proof.
  induction before as [|x before IH]; intros i lineNo prev Hall Hc.
  - simpl. destruct (Z.ltb_spec p c); [|lia].
    rewrite Z.add_0_r. reflexivity.
  - inversion Hall as [|? ? Hx Hrest]; subst.
    cbn [app decode_loop]. destruct (Z.ltb_spec p x); [lia|].
    rewrite (IH _ _ _ Hrest Hc), last_cons_default.
    f_equal. f_equal. cbn [length]. lia.
Qed.

(** With no count above the offset, the loop runs to the end. *)
Lemma decode_loop_no_break (p : Z) (counts : list Z) :
  forall i lineNo prev,
  Forall (fun x => x <= p) counts ->
  decode_loop p i lineNo prev counts =
    (match counts with
     | [] => lineNo
     | _ => Some (i + Z.of_nat (length counts) - 1)
     end, default prev (last counts)).
Proof.
  induction counts as [|x counts IH]; intros i lineNo prev Hall.
  - reflexivity.
  - inversion Hall as [|? ? Hx Hrest]; subst.
    cbn [decode_loop]. destruct (Z.ltb_spec p x); [lia|].
    rewrite (IH _ _ _ Hrest), last_cons_default.
    destruct counts; cbn [length]; f_equal; f_equal; lia.
Qed.

Lemma first_exceeding (p : Z) (counts : list Z) :
  Exists (fun c => p < c) counts ->
  exists k c,
    counts !! k = Some c /\ p < c /\
    forall j c', (j < k)%nat -> counts !! j = Some c' -> c' <= p.
Proof.
  induction counts as [|x counts IH]; intros Hex.
  - inversion Hex.
  - destruct (Z.lt_ge_cases p x) as [Hlt|Hge].
    + exists 0%nat, x. repeat split; [exact Hlt|]. intros j c' Hj. lia.
    + assert (Hex' : Exists (fun c => p < c) counts).
      { inversion Hex; subst; [lia | assumption]. }
      destruct (IH Hex') as (k & c & Hk & Hc & Hbefore).
      exists (S k), c. repeat split; [exact Hk | exact Hc |].
      intros [|j] c' Hj Hl.
      * simpl in Hl. injection Hl as <-. lia.
      * simpl in Hl. apply (Hbefore j); [lia | exact Hl].
Qed.

(** The counts grow by at least one per line. *)
Lemma count_lines_increasing (lines : list string) :
  forall counter k c c',
  count_lines counter lines !! k = Some c ->
  count_lines counter lines !! S k = Some c' ->
  c < c'.
Proof.
  induction lines as [|line rest IH]; intros counter k c c' Hk HSk.
  - discriminate.
  - destruct k as [|k]; simpl in Hk, HSk.
    + injection Hk as <-. destruct rest as [|line' rest']; [discriminate|].
      simpl in HSk. injection HSk as <-. lia.
    + eapply IH; eassumption.
Qed.

Lemma count_lines_above (lines : list string) :
  forall counter k c,
  count_lines counter lines !! k = Some c -> counter < c.
Proof.
  induction lines as [|line rest IH]; intros counter k c Hk.
  - discriminate.
  - destruct k as [|k]; simpl in Hk.
    + injection Hk as <-. lia.
    + apply IH in Hk. lia.
Qed.

Lemma count_lines_monotone (lines : list string) (counter : Z) :
  forall j k c c',
  (j <= k)%nat ->
  count_lines counter lines !! j = Some c ->
  count_lines counter lines !! k = Some c' ->
  c <= c'.
Proof.
  intros j k. revert j. induction k as [|k IH]; intros j c c' Hjk Hj Hk.
  - assert (j = 0)%nat as -> by lia. rewrite Hj in Hk.
    injection Hk as ->. lia.
  - destruct (decide (j = S k)) as [->|Hne].
    + rewrite Hj in Hk. injection Hk as ->. lia.
    + destruct (count_lines counter lines !! k) as [ck|] eqn:Hck.
      * pose proof (IH j c ck ltac:(lia) Hj eq_refl).
        pose proof (count_lines_increasing _ _ _ _ _ Hck Hk). lia.
      * apply lookup_ge_None in Hck. apply lookup_lt_Some in Hk. lia.
Qed.

Lemma count_lines_last (lines : list string) :
  forall counter, lines <> [] ->
  last (count_lines counter lines) = Some (counter + total lines).
Proof.
  induction lines as [|line rest IH]; intros counter Hne; [congruence|].
  destruct rest as [|line' rest'].
  - simpl. f_equal. lia.
  - change (count_lines counter (line :: line' :: rest'))
      with (let c := counter + (Z.of_nat (String.length line) + 1) in
            c :: count_lines c (line' :: rest')).
    cbv zeta.
    change (last (?x :: count_lines ?c (line' :: rest')))
      with (last (count_lines c (line' :: rest'))).
    rewrite IH by congruence. f_equal. cbn [total]. lia.
Qed.

Lemma split_total (c : ascii) (s : string) :
  total (PyStr.split c s) = Z.of_nat (String.length s) + 1.
Proof.
  induction s as [|a s IH].
  - reflexivity.
  - cbn [PyStr.split]. destruct (Ascii.eqb a c).
    + cbn [total String.length]. rewrite IH. lia.
    + destruct (PyStr.split c s) as [|line lines].
      * cbn [total] in *. cbn [String.length]. lia.
      * cbn [total String.length] in *. lia.
Qed.

Lemma split_nonempty (c : ascii) (s : string) : PyStr.split c s <> [].
Proof.
  destruct s as [|a s]; [discriminate|].
  cbn [PyStr.split]. destruct (Ascii.eqb a c); [discriminate|].
  destruct (PyStr.split c s); discriminate.
Qed.

(** The last count of a text is its length plus one. *)
Lemma linecounts_last (text : string) :
  last (linecounts (init text)) = Some (Z.of_nat (String.length text) + 1).
Proof.
  unfold init. cbn [linecounts].
  rewrite count_lines_last by apply split_nonempty.
  rewrite split_total. reflexivity.
Qed.

End DecodeFacts.

(** The count before line [k]: nothing for the first line. *)
Lemma decode_pos_first (self : grammar) (p : Z) (k : nat) (count : Z) :
  linecounts self !! k = Some count ->
  p < count ->
  (forall j c, (j < k)%nat -> linecounts self !! j = Some c -> c <= p) ->
  decode_pos self p =
    Return (Z.of_nat k + 1,
            p - match k with
                | O => 0
                | S k' => default 0 (linecounts self !! k')
                end + 1).
Proof.
  intros Hk Hlt Hbefore.
  assert (Hall : Forall (fun x => x <= p) (take k (linecounts self))).
  { apply Forall_lookup. intros j c Hj.
    apply lookup_take_Some in Hj as [Hj Hjk]. eapply Hbefore; eassumption. }
  pose proof (decode_loop_break p _ (drop (S k) (linecounts self)) count
                0 None 0 Hall Hlt) as E.
  rewrite take_drop_middle in E by exact Hk.
  unfold decode_pos. rewrite E.
  assert (Hlen : length (take k (linecounts self)) = k).
  { apply length_take_le. apply lookup_lt_Some in Hk. lia. }
  rewrite Hlen, Z.add_0_l.
  assert (Hprev : last (take k (linecounts self)) =
                  match k with
                  | O => None
                  | S k' => linecounts self !! k'
                  end).
  { rewrite last_lookup, Hlen. destruct k as [|k']; [reflexivity|].
    cbn [pred]. apply lookup_take_lt. lia. }
  rewrite Hprev. destruct k; reflexivity.
Qed.

(** An offset no count exceeds is not a position of the text; the loop
    then runs out and leaves the last line number and the last count. *)
Lemma decode_pos_past_end (self : grammar) (p : Z) :
  linecounts self <> [] ->
  Forall (fun c => c <= p) (linecounts self) ->
  decode_pos self p =
    Return (Z.of_nat (length (linecounts self)),
            p - default 0 (last (linecounts self)) + 1).
Proof.
  intros Hne Hall. unfold decode_pos.
  rewrite (decode_loop_no_break p _ 0 None 0 Hall).
  destruct (linecounts self) as [|c rest]; [congruence|].
  f_equal. f_equal. lia.
Qed.

(** C6.  On the line counts of a text, an offset below some count decodes
    to the 1-based number of the first line whose count exceeds it, with
    the column counted from the previous line's count (from zero on the
    first line).  Every offset up to the length of the text has such a
    line.  Offset zero is line one, column one, and the count of a line
    that is followed by another decodes to column one of that next line. *)
Theorem decode_pos_first_line_above (self : grammar) (text : string)
    (offset : Z) :
  linecounts self = linecounts (init text) ->
  (forall k count,
     linecounts self !! k = Some count ->
     offset < count ->
     (forall j c, (j < k)%nat -> linecounts self !! j = Some c -> c <= offset) ->
     decode_pos self offset =
       Return (Z.of_nat k + 1,
               offset - match k with
                        | O => 0
                        | S k' => default 0 (linecounts self !! k')
                        end + 1)) /\
  (offset <= Z.of_nat (String.length text) ->
   exists k count,
     linecounts self !! k = Some count /\
     offset < count /\
     (forall j c, (j < k)%nat -> linecounts self !! j = Some c -> c <= offset)) /\
  decode_pos self 0 = Return (1, 1) /\
  (forall k c,
     linecounts self !! k = Some c ->
     is_Some (linecounts self !! S k) ->
     decode_pos self c = Return (Z.of_nat k + 2, 1)).
Proof.
  intros Hcounts. split; [|split; [|split]].
  - intros k count. apply decode_pos_first.
  - intros Hin. apply first_exceeding. apply Exists_exists.
    exists (Z.of_nat (String.length text) + 1). split; [|lia].
    apply last_Some_elem_of. rewrite Hcounts. apply linecounts_last.
  - assert (H0 : exists c0, linecounts self !! 0%nat = Some c0 /\ 0 < c0).
    { rewrite Hcounts. unfold init. cbn [linecounts].
      pose proof (split_nonempty PyStr.newline text) as Hne.
      destruct (PyStr.split PyStr.newline text) as [|line rest];
        [congruence|].
      cbn [count_lines]. eexists. split; [reflexivity | lia]. }
    destruct H0 as (c0 & H0 & Hpos).
    rewrite (decode_pos_first self 0 0 c0 H0 Hpos); [reflexivity|].
    intros j c Hj. lia.
  - intros k c Hk [c' HSk].
    rewrite (decode_pos_first self c (S k) c' HSk).
    + rewrite Hk. unfold default, id. f_equal. f_equal; lia.
    + rewrite Hcounts in Hk, HSk. unfold init in Hk, HSk.
      cbn [linecounts] in Hk, HSk.
      eapply count_lines_increasing; eassumption.
    + intros j cj Hj Hcj.
      rewrite Hcounts in Hk, Hcj. unfold init in Hk, Hcj.
      cbn [linecounts] in Hk, Hcj.
      eapply (count_lines_monotone _ _ j k); [lia | exact Hcj | exact Hk].
Qed.

Lemma decode_pos_first_line_above_witness :
  let text := String.concat (String PyStr.newline "")
                ["hello"; "0123456789"; "abcdefg"] in
  linecounts (init text) = [6; 17; 25] /\
  decode_pos (init text) 0 = Return (1, 1) /\
  decode_pos (init text) 5 = Return (1, 6) /\
  decode_pos (init text) 6 = Return (2, 1) /\
  decode_pos (init text) 17 = Return (3, 1).
Proof.
  intros text.
  destruct (decode_pos_first_line_above (init text) text 5 eq_refl)
    as (H5 & _ & H0 & Hnext).
  split; [reflexivity|]. split; [exact H0|]. split; [|split].
  - apply (H5 0%nat 6); [reflexivity | lia | intros j c Hj; lia].
  - apply (Hnext 0%nat 6); [reflexivity | vm_compute; eauto].
  - apply (Hnext 1%nat 17); [reflexivity | vm_compute; eauto].
Defined.

(** ** The position stack *)

Lemma pop_push (self : grammar) (p : Z) :
  pop (push self p) =
    Some {| input := input self; linecounts := linecounts self;
            curpos := curpos self |}.
Proof.
  unfold pop, push. cbn [curpos input linecounts].
  destruct (curpos self ++ [p])%list eqn:E.
  - destruct (curpos self); discriminate.
  - rewrite <- E, removelast_last. reflexivity.
Qed.

(** Popping a stack whose top was pushed on [stack]. *)
Lemma pop_top (inside : grammar) (stack : list Z) (p : Z) :
  curpos inside = (stack ++ [p])%list ->
  exists after,
    pop inside = Some after /\ curpos after = stack /\
    input after = input inside /\ linecounts after = linecounts inside.
Proof.
  intros H. unfold pop. rewrite H.
  destruct (stack ++ [p])%list eqn:E.
  - destruct stack; discriminate.
  - rewrite <- E, removelast_last. eexists. repeat split.
Qed.

(** A body that leaves the stack as it found it is wrapped into an
    application that does the same. *)
Lemma apply_around_balanced (body : grammar -> outcome value * grammar)
    (self : grammar) :
  (forall g, curpos (snd (body g)) = curpos g) ->
  curpos (snd (apply_around body self)) = curpos self.
Proof.
  intros Hbody. unfold apply_around.
  pose proof (Hbody (push self (pos self))) as H.
  destruct (body (push self (pos self))) as [ret inside]. cbn [snd] in H.
  destruct (pop_top inside (curpos self) (pos self) H) as (after & -> & Hc & _).
  exact Hc.
Qed.

(** No rule body changes the stack: nested applications undo their own
    push, and nothing else touches it. *)
Lemma run_balanced (r : rule) :
  forall self, curpos (snd (run r self)) = curpos self.
Proof.
  induction r as [n v|e|r1 IH1 r2 IH2|r1 IH1 r2 IH2|r IH|kind contents];
    intros self; cbn [run].
  - reflexivity.
  - reflexivity.
  - pose proof (IH1 self) as H1.
    destruct (run r1 self) as [[v|e] self1]; cbn [snd] in *.
    + rewrite IH2. exact H1.
    + exact H1.
  - pose proof (IH1 self) as H1.
    destruct (run r1 self) as [[v|e] self1]; cbn [snd] in *.
    + exact H1.
    + destruct (is_parse_failure e); cbn [snd].
      * rewrite IH2. exact H1.
      * exact H1.
  - apply apply_around_balanced. exact IH.
  - reflexivity.
Qed.

(** Nor does any rule body change the line counts. *)
Lemma run_linecounts (r : rule) :
  forall self, linecounts (snd (run r self)) = linecounts self.
Proof.
  induction r as [n v|e|r1 IH1 r2 IH2|r1 IH1 r2 IH2|r IH|kind contents];
    intros self; cbn [run].
  - reflexivity.
  - reflexivity.
  - pose proof (IH1 self) as H1.
    destruct (run r1 self) as [[v|e] self1]; cbn [snd] in *.
    + rewrite IH2. exact H1.
    + exact H1.
  - pose proof (IH1 self) as H1.
    destruct (run r1 self) as [[v|e] self1]; cbn [snd] in *.
    + exact H1.
    + destruct (is_parse_failure e); cbn [snd].
      * rewrite IH2. exact H1.
      * exact H1.
  - unfold apply_around.
    pose proof (IH (push self (pos self))) as H1.
    pose proof (run_balanced r (push self (pos self))) as H2.
    destruct (run r (push self (pos self))) as [ret inside]. cbn [snd] in *.
    destruct (pop_top inside (curpos self) (pos self) H2)
      as (after & -> & _ & _ & Hl).
    cbn [snd]. rewrite Hl. exact H1.
  - reflexivity.
Qed.

(** ** The ordered set *)

Section HySetFacts.
Context {T : Type} `{EqDecision T}.
Variable le : relation T.
Context `{!RelDecision le}.
Context `{!Total le} `{!Transitive le} `{!AntiSymm (=) le}.

(** The truth test of the lambda never matters: a list with a member is
    not empty. *)
Lemma keep_member (r : list T) (v : T) :
  keep r v = if bool_decide (v ∈ r) then r else (r ++ [v])%list.
Proof.
  unfold keep. case_bool_decide as Hin; [|reflexivity].
  destruct r; [|reflexivity]. inversion Hin.
Qed.

Lemma sorted_drop_middle (l1 l2 : list T) (x : T) :
  StronglySorted le (l1 ++ x :: l2) -> StronglySorted le (l1 ++ l2).
Proof.
  rewrite !StronglySorted_app, StronglySorted_cons.
  intros (Hcross & H1 & _ & H2). repeat split; try assumption.
  intros x1 x2 Hx1 Hx2. apply Hcross; [exact Hx1 | right; exact Hx2].
Qed.

(** The fold over a sorted remainder. *)
Lemma fold_keep_sorted (l : list T) :
  forall acc,
  StronglySorted le (acc ++ l) -> NoDup acc ->
  StronglySorted le (fold_left keep l acc) /\
  NoDup (fold_left keep l acc) /\
  (forall x, x ∈ fold_left keep l acc <-> x ∈ (acc ++ l)%list).
Proof.
  induction l as [|v l IH]; intros acc Hs Hnd; cbn [fold_left].
  - rewrite app_nil_r in *. tauto.
  - rewrite keep_member. case_bool_decide as Hin.
    + destruct (IH acc (sorted_drop_middle _ _ _ Hs) Hnd) as (Hs' & Hnd' & Hel).
      repeat split; try assumption.
      * intros Hx. apply Hel in Hx. rewrite elem_of_app in *.
        destruct Hx; [left | right; right]; assumption.
      * intros Hx. apply Hel. rewrite elem_of_app, elem_of_cons in *.
        destruct Hx as [Hx|[->|Hx]]; auto.
    + assert (Hs2 : StronglySorted le ((acc ++ [v]) ++ l))
        by (rewrite <- app_assoc; exact Hs).
      assert (Hnd2 : NoDup (acc ++ [v])).
      { apply NoDup_app. repeat split; [exact Hnd| |apply NoDup_singleton].
        intros x Hx Hxv. apply list_elem_of_singleton in Hxv. subst.
        contradiction. }
      destruct (IH _ Hs2 Hnd2) as (Hs' & Hnd' & Hel).
      repeat split; try assumption.
      * intros Hx. apply Hel in Hx. rewrite <- app_assoc in Hx. exact Hx.
      * intros Hx. apply Hel. rewrite <- app_assoc. exact Hx.
Qed.

(** On a sorted prefix, being a member and being the last kept element
    are the same. *)
Lemma keep_agree (acc : list T) (v : T) :
  StronglySorted le (acc ++ [v]) ->
  keep acc v = keep_if_new_last acc v.
Proof.
  intros Hs. rewrite keep_member. unfold keep_if_new_last.
  destruct (last acc) as [u|] eqn:Hlast.
  - apply last_Some in Hlast as [acc' ->].
    case_bool_decide as Hin; case_bool_decide as Huv; try reflexivity.
    + exfalso. apply Huv.
      apply elem_of_app in Hin as [Hin|Hin].
      * apply (anti_symm le).
        -- eapply StronglySorted_app_1_elem_of;
             [exact Hs | apply elem_of_app; right; left | left].
        -- apply StronglySorted_app_1_l in Hs.
           eapply StronglySorted_app_1_elem_of; [exact Hs | exact Hin | left].
      * apply list_elem_of_singleton in Hin. congruence.
    + exfalso. apply Hin. subst. apply elem_of_app. right. left.
  - apply last_None in Hlast as ->. reflexivity.
Qed.

Lemma fold_keep_agree (l : list T) :
  forall acc,
  StronglySorted le (acc ++ l) ->
  fold_left keep l acc = fold_left keep_if_new_last l acc.
Proof.
  induction l as [|v l IH]; intros acc Hs; cbn [fold_left]; [reflexivity|].
  assert (Hv : StronglySorted le (acc ++ [v])).
  { replace (acc ++ v :: l)%list with ((acc ++ [v]) ++ l)%list in Hs
      by (rewrite <- app_assoc; reflexivity).
    eapply StronglySorted_app_1_l. exact Hs. }
  rewrite <- (keep_agree acc v Hv).
  apply IH. rewrite keep_member. case_bool_decide.
  - eapply sorted_drop_middle. exact Hs.
  - rewrite <- app_assoc. exact Hs.
Qed.

Lemma sorted_strict (l : list T) :
  StronglySorted le l -> NoDup l -> StronglySorted (strict le) l.
Proof.
  induction l as [|x l IH]; intros Hs Hnd; [constructor|].
  apply StronglySorted_cons in Hs as [Hall Hs].
  apply NoDup_cons in Hnd as [Hx Hnd].
  constructor; [auto|].
  apply Forall_forall. intros y Hy. split.
  - eapply Forall_forall in Hall; eassumption.
  - intros Hyx. apply Hx.
    assert (x = y) as ->; [|exact Hy].
    apply (anti_symm le); [|exact Hyx].
    eapply Forall_forall in Hall; eassumption.
Qed.

Lemma HySet_properties (items : list T) :
  StronglySorted (strict le) (HySet le items) /\
  NoDup (HySet le items) /\
  (forall x, x ∈ HySet le items <-> x ∈ items) /\
  HySet le items = dedup_adjacent (sorted le items).
Proof.
  unfold HySet, dedup_adjacent.
  assert (Hs : StronglySorted le ([] ++ sorted le items))
    by (apply StronglySorted_merge_sort; assumption).
  destruct (fold_keep_sorted (sorted le items) [] Hs (NoDup_nil_2 ))
    as (Hs' & Hnd & Hel).
  split; [apply sorted_strict; assumption|].
  split; [exact Hnd|]. split.
  - intros x. rewrite Hel. cbn [app]. unfold sorted.
    rewrite merge_sort_Permutation. reflexivity.
  - apply fold_keep_agree. exact Hs.
Qed.
End HySetFacts.

(** C5.  Under a decidable total order, the list a [HySet] holds is
    strictly ascending, so it has no duplicates, and it has exactly the
    members of the input; it is what removing adjacent duplicates from the
    sorted input gives.  Its representation is the representations of the
    stored elements joined by spaces between [#{] and [}]; the integers
    3, 1, 2, 2, 1 print as [#{1 2 3}] and the empty input as [#{}]. *)
Theorem HySet_sorted_distinct {T : Type} `{EqDecision T} (le : relation T)
    `{!RelDecision le} (repr : T -> string) (items : list T) :
  Total le -> Transitive le -> AntiSymm (=) le ->
  StronglySorted (strict le) (HySet le items) /\
  NoDup (HySet le items) /\
  (forall x, x ∈ HySet le items <-> x ∈ items) /\
  HySet le items = dedup_adjacent (sorted le items) /\
  HySet_repr repr (HySet le items) =
    ("#{" ++ PyStr.join " " (map repr (HySet le items)) ++ "}")%string /\
  HySet Z.le [3; 1; 2; 2; 1] = [1; 2; 3] /\
  HySet_repr PyInt.repr (HySet Z.le [3; 1; 2; 2; 1]) = "#{1 2 3}" /\
  HySet_repr PyInt.repr (HySet Z.le []) = "#{}".
Proof.
  intros Htotal Htrans Hanti.
  destruct (HySet_properties le items) as (Hs & Hnd & Hel & Hspec).
  repeat split; try assumption; try reflexivity; apply Hel.
Qed.

Lemma HySet_sorted_distinct_witness :
  StronglySorted (strict Z.le) (HySet Z.le [5; -2; 5; 0; -2]) /\
  HySet Z.le [5; -2; 5; 0; -2] = [-2; 0; 5] /\
  HySet_repr PyInt.repr (HySet Z.le [5; -2; 5; 0; -2]) = "#{-2 0 5}".
Proof.
  destruct (HySet_sorted_distinct Z.le PyInt.repr [5; -2; 5; 0; -2])
    as (Hs & _ & _ & _ & Hrepr & _).
  - intros x y. lia.
  - intros x y z Hxy Hyz. lia.
  - intros x y Hxy Hyx. lia.
  - split; [exact Hs|]. split; [reflexivity|]. rewrite Hrepr. reflexivity.
Defined.


(** * Further properties of the code *)

(** ** The line index built by [__init__] *)

Lemma count_lines_length (lines : list string) :
  forall counter, length (count_lines counter lines) = length lines.
Proof.
  induction lines as [|line rest IH]; intros counter; cbn [count_lines length];
    [reflexivity | rewrite IH; reflexivity].
Qed.

Lemma count_lines_lookup (lines : list string) :
  forall counter k,
  count_lines counter lines !! k =
    (fun _ => counter + total (take (S k) lines)) <$> lines !! k.
Proof.
  induction lines as [|line rest IH]; intros counter k.
  - reflexivity.
  - destruct k as [|k].
    + change (take 1 (line :: rest)) with [line].
      cbn [count_lines lookup list_lookup fmap option_fmap option_map total].
      f_equal. lia.
    + cbn [count_lines lookup list_lookup]. rewrite IH.
      destruct (rest !! k) as [l|]; [|reflexivity].
      cbn [fmap option_fmap option_map]. f_equal.
      change (take (S (S k)) (line :: rest)) with (line :: take (S k) rest).
      cbn [total]. lia.
Qed.

Lemma split_length (c : ascii) (s : string) :
  length (PyStr.split c s) = S (count_char c s).
Proof.
  induction s as [|a s IH]; [reflexivity|].
  cbn [PyStr.split count_char]. destruct (Ascii.eqb a c).
  - cbn [length]. rewrite IH. reflexivity.
  - destruct (PyStr.split c s) as [|line lines]; cbn [length] in *; lia.
Qed.

Lemma join_cons_cons (sep p q : string) (rest : list string) :
  PyStr.join sep (p :: q :: rest) = (p ++ sep ++ PyStr.join sep (q :: rest))%string.
Proof. reflexivity. Qed.

Lemma split_join (s : string) :
  PyStr.join (String PyStr.newline "") (PyStr.split PyStr.newline s) = s.
Proof.
  induction s as [|a s IH]; [reflexivity|].
  cbn [PyStr.split]. pose proof (split_nonempty PyStr.newline s) as Hne.
  destruct (PyStr.split PyStr.newline s) as [|line lines]; [congruence|].
  destruct (Ascii.eqb_spec a PyStr.newline) as [->|Hneq].
  - rewrite join_cons_cons, IH. reflexivity.
  - destruct lines as [|line' lines'].
    + cbn in *. rewrite IH. reflexivity.
    + rewrite join_cons_cons in *. rewrite <- IH. reflexivity.
Qed.

Lemma split_no_newline (s : string) :
  Forall (fun line => PyStr.contains PyStr.newline line = false)
    (PyStr.split PyStr.newline s).
Proof.
  induction s as [|a s IH]; [repeat constructor|].
  cbn [PyStr.split]. destruct (Ascii.eqb a PyStr.newline) eqn:Ha.
  - constructor; [reflexivity | exact IH].
  - destruct (PyStr.split PyStr.newline s) as [|line lines];
      [repeat constructor; cbn; rewrite Ha; reflexivity|].
    inversion IH as [|? ? Hl Hls]; subst.
    constructor; [cbn; rewrite Ha, Hl; reflexivity | exact Hls].
Qed.

(** X1.  [__init__] records one count per line of the text, lines being
    what lies between newlines, so one more than there are newlines; the
    count of a line is the number of characters up to and including its
    newline, the last one being the length of the text plus one.  The
    lines joined by newlines are the text again, and none holds a newline.
    The grammar starts at offset zero with an empty position stack. *)
Theorem init_line_index (text : string) :
  let lines := PyStr.split PyStr.newline text in
  length (linecounts (init text)) = S (count_char PyStr.newline text) /\
  length lines = S (count_char PyStr.newline text) /\
  PyStr.join (String PyStr.newline "") lines = text /\
  Forall (fun line => PyStr.contains PyStr.newline line = false) lines /\
  (forall k,
     linecounts (init text) !! k =
       (fun _ => total (take (S k) lines)) <$> lines !! k) /\
  last (linecounts (init text)) = Some (Z.of_nat (String.length text) + 1) /\
  pos (init text) = 0 /\
  curpos (init text) = [].
Proof.
  intros lines. unfold init. cbn [linecounts curpos pos input position].
  rewrite count_lines_length. fold lines.
  repeat split.
  - apply split_length.
  - apply split_length.
  - apply split_join.
  - apply split_no_newline.
  - intros k. rewrite count_lines_lookup.
    destruct (lines !! k); [|reflexivity]. cbn. f_equal.
  - apply linecounts_last.
Qed.

(** ** Decoding offsets against the text *)

Lemma total_nonneg (lines : list string) : 0 <= total lines.
Proof. induction lines as [|line rest IH]; cbn [total]; lia. Qed.

Lemma total_app (l1 l2 : list string) :
  total (l1 ++ l2) = total l1 + total l2.
Proof. induction l1 as [|x l1 IH]; cbn [app total]; lia. Qed.

Lemma total_take_S (lines : list string) (k : nat) (line : string) :
  lines !! k = Some line ->
  total (take (S k) lines) =
    total (take k lines) + Z.of_nat (String.length line) + 1.
Proof.
  intros Hk. rewrite (take_S_r _ _ _ Hk), total_app. cbn [total]. lia.
Qed.

(** The line that holds an offset, from the counts alone. *)
Lemma decode_pos_in_range (self : grammar) (p : Z) :
  Exists (fun c => p < c) (linecounts self) ->
  exists k count,
    linecounts self !! k = Some count /\ p < count /\
    (forall j c, (j < k)%nat -> linecounts self !! j = Some c -> c <= p) /\
    decode_pos self p =
      Return (Z.of_nat k + 1,
              p - match k with
                  | O => 0
                  | S k' => default 0 (linecounts self !! k')
                  end + 1).
Proof.
  intros Hex.
  destruct (first_exceeding p _ Hex) as (k & count & Hk & Hlt & Hbefore).
  exists k, count. repeat split; try assumption.
  apply (decode_pos_first self p k count); assumption.
Qed.

Lemma init_in_range (text : string) (p : Z) :
  p <= Z.of_nat (String.length text) ->
  Exists (fun c => p < c) (linecounts (init text)).
Proof.
  intros Hp. apply Exists_exists.
  exists (Z.of_nat (String.length text) + 1). split; [|lia].
  apply last_Some_elem_of, linecounts_last.
Qed.

Lemma init_count (text : string) (k : nat) (count : Z) :
  linecounts (init text) !! k = Some count ->
  exists line,
    PyStr.split PyStr.newline text !! k = Some line /\
    count = total (take (S k) (PyStr.split PyStr.newline text)).
Proof.
  unfold init. cbn [linecounts]. rewrite count_lines_lookup.
  destruct (PyStr.split PyStr.newline text !! k) as [line|]; [|discriminate].
  cbn. intros [= <-]. exists line. split; [reflexivity | lia].
Qed.

(** The count before line [k] is where line [k] starts. *)
Lemma init_prev (text : string) (k : nat) (line : string) :
  PyStr.split PyStr.newline text !! k = Some line ->
  match k with
  | O => 0
  | S k' => default 0 (linecounts (init text) !! k')
  end = total (take k (PyStr.split PyStr.newline text)).
Proof.
  intros Hk. destruct k as [|k']; [reflexivity|].
  unfold init. cbn [linecounts]. rewrite count_lines_lookup.
  assert (Hlt : (k' < length (PyStr.split PyStr.newline text))%nat).
  { apply lookup_lt_Some in Hk. lia. }
  destruct (lookup_lt_is_Some_2 _ _ Hlt) as [l' Hl']. rewrite Hl'.
  cbn. lia.
Qed.

(** The characters of a line sit in the text from the line's start on,
    and a line that is not the last is followed by a newline. *)
Lemma split_get (text : string) :
  forall k line j,
  PyStr.split PyStr.newline text !! k = Some line ->
  (j <= String.length line)%nat ->
  (j < String.length line \/
   S k < length (PyStr.split PyStr.newline text))%nat ->
  String.get (Z.to_nat (total (take k (PyStr.split PyStr.newline text))) + j)
    text =
  String.get j (line ++ String PyStr.newline "").
Proof.
  induction text as [|a rest IH]; intros k line j Hk Hj Hcase.
  - destruct k as [|k]; [|discriminate]. cbn in Hk. injection Hk as <-.
    cbn in Hj, Hcase. lia.
  - cbn [PyStr.split] in *.
    pose proof (split_nonempty PyStr.newline rest) as Hne.
    destruct (Ascii.eqb_spec a PyStr.newline) as [->|Hneq].
    + destruct k as [|k].
      * cbn in Hk. injection Hk as <-. cbn in Hj.
        assert (j = 0)%nat as -> by lia. reflexivity.
      * cbn [lookup list_lookup] in Hk. cbn [length] in Hcase.
        change (take (S k) ("" :: PyStr.split PyStr.newline rest))
          with ("" :: take k (PyStr.split PyStr.newline rest)).
        cbn [total String.length].
        pose proof (total_nonneg (take k (PyStr.split PyStr.newline rest))).
        replace (Z.to_nat
                   (Z.of_nat 0 + 1 +
                    total (take k (PyStr.split PyStr.newline rest))))
          with (S (Z.to_nat (total (take k (PyStr.split PyStr.newline rest)))))
          by lia.
        cbn [Nat.add String.get]. apply IH; [exact Hk | exact Hj | lia].
    + destruct (PyStr.split PyStr.newline rest) as [|l0 ls] eqn:E;
        [congruence|].
      destruct k as [|k].
      * cbn in Hk. injection Hk as <-. cbn [take total Z.to_nat Nat.add].
        destruct j as [|j]; [reflexivity|].
        cbn [String.length] in Hj, Hcase. cbn [length] in Hcase.
        cbn [String.append String.get].
        apply (IH 0%nat l0 j); [reflexivity | lia | cbn [length]; lia].
      * cbn [lookup list_lookup] in Hk. cbn [length] in Hcase.
        change (take (S k) (String a l0 :: ls)) with (String a l0 :: take k ls).
        cbn [total String.length].
        pose proof (total_nonneg (take k ls)).
        specialize (IH (S k) line j Hk Hj ltac:(cbn [length]; lia)).
        change (take (S k) (l0 :: ls)) with (l0 :: take k ls) in IH.
        cbn [total] in IH.
        replace (Z.to_nat
                   (Z.of_nat (S (String.length l0)) + 1 + total (take k ls)))
          with (S (Z.to_nat
                     (Z.of_nat (String.length l0) + 1 + total (take k ls))))
          by lia.
        cbn [Nat.add String.get]. exact IH.
Qed.

(** X2.  On a grammar that has at least one line count, as every grammar
    built by [__init__] has, [decode_pos] returns for every offset, in or
    out of the text, and the line it reports lies between one and the
    number of lines.  Without any count its loop variable stays unbound. *)
Theorem decode_pos_line_bounds (self : grammar) (p : Z) :
  (linecounts self <> [] ->
   exists line column,
     decode_pos self p = Return (line, column) /\
     1 <= line <= Z.of_nat (length (linecounts self))) /\
  (linecounts self = [] -> decode_pos self p = Raise UnboundLocalError) /\
  (forall text, linecounts (init text) <> []).
Proof.
  split; [|split].
  - intros Hne.
    destruct (decide (Exists (fun c => p < c) (linecounts self))) as [Hex|Hno].
    + destruct (decode_pos_in_range self p Hex) as (k & count & Hk & _ & _ & Hd).
      apply lookup_lt_Some in Hk. eexists _, _. split; [exact Hd | lia].
    + apply not_Exists_Forall in Hno; [|intros c; apply _].
      assert (Hall : Forall (fun c => c <= p) (linecounts self)).
      { eapply Forall_impl; [exact Hno|]. intros c Hc. cbn in Hc. lia. }
      rewrite (decode_pos_past_end self p Hne Hall).
      eexists _, _. split; [reflexivity|].
      destruct (linecounts self); [congruence | cbn [length]; lia].
  - intros Hnil. unfold decode_pos. rewrite Hnil. reflexivity.
  - intros text Hnil.
    pose proof (linecounts_last text) as Hlast. rewrite Hnil in Hlast.
    discriminate.
Qed.

Lemma decode_pos_line_bounds_witness :
  exists line column,
    decode_pos (init "ab") 99 = Return (line, column) /\
    1 <= line <= 1.
Proof.
  destruct (decode_pos_line_bounds (init "ab") 99) as (H & _ & _).
  apply H. discriminate.
Defined.

(** X3.  An offset into the text decodes to the line that holds it and to
    its distance from the start of that line, counted from one: the offset
    is recovered as line start plus column minus one, the column runs from
    one to the length of the line plus one, and the character at the offset
    is the character at that column of the line, or the newline after it.
    The end of the text decodes to the column after the last line. *)
Theorem decode_pos_locates_character (text : string) (p : Z) :
  0 <= p <= Z.of_nat (String.length text) ->
  exists k line,
    PyStr.split PyStr.newline text !! k = Some line /\
    let start := total (take k (PyStr.split PyStr.newline text)) in
    decode_pos (init text) p = Return (Z.of_nat k + 1, p - start + 1) /\
    1 <= p - start + 1 <= Z.of_nat (String.length line) + 1 /\
    (p < Z.of_nat (String.length text) ->
     String.get (Z.to_nat p) text =
       String.get (Z.to_nat (p - start)) (line ++ String PyStr.newline "")) /\
    (p = Z.of_nat (String.length text) ->
     S k = length (PyStr.split PyStr.newline text) /\
     p - start = Z.of_nat (String.length line)).
Proof.
  intros [Hp0 Hp].
  destruct (decode_pos_in_range (init text) p (init_in_range text p Hp))
    as (k & count & Hk & Hlt & Hbefore & Hd).
  destruct (init_count text k count Hk) as (line & Hline & Hcount).
  pose proof (init_prev text k line Hline) as Hprev.
  pose proof (total_take_S _ _ _ Hline) as HS.
  set (lines := PyStr.split PyStr.newline text) in *.
  set (start := total (take k lines)) in *.
  assert (Hstart : start <= p).
  { destruct k as [|k']; [subst start; cbn; lia|].
    rewrite <- Hprev.
    assert (Hlt' : (k' < length (linecounts (init text)))%nat).
    { apply lookup_lt_Some in Hk. lia. }
    destruct (lookup_lt_is_Some_2 _ _ Hlt') as [c' Hc']. rewrite Hc'.
    cbn. apply (Hbefore k' c'); [lia | exact Hc']. }
  assert (Hlast : S k = length lines -> count = Z.of_nat (String.length text) + 1).
  { intros Hl. rewrite Hcount, take_ge by lia. apply split_total. }
  exists k, line. split; [exact Hline|]. cbv zeta. fold lines. fold start.
  split; [rewrite Hd, Hprev; reflexivity|].
  split; [lia|]. split.
  - intros Hin.
    rewrite <- (split_get text k line (Z.to_nat (p - start)) Hline).
    + f_equal. fold lines. fold start.
      pose proof (total_nonneg (take k lines)). fold start in H. lia.
    + lia.
    + destruct (decide (S k < length lines)%nat) as [Hk'|Hk']; [right; exact Hk'|].
      left. apply lookup_lt_Some in Hline.
      assert (S k = length lines) as Heq by lia.
      specialize (Hlast Heq). lia.
  - intros ->.
    destruct (decide (S k = length lines)) as [Heq|Hneq].
    + split; [exact Heq|]. specialize (Hlast Heq). lia.
    + exfalso. apply lookup_lt_Some in Hline.
      assert (Hnext : (S k < length (linecounts (init text)))%nat).
      { unfold init. cbn [linecounts]. rewrite count_lines_length.
        fold lines. lia. }
      destruct (lookup_lt_is_Some_2 _ _ Hnext) as [c' Hc'].
      unfold init in Hk, Hc'. cbn [linecounts] in Hk, Hc'.
      pose proof (count_lines_increasing _ _ _ _ _ Hk Hc') as Hinc.
      pose proof (linecounts_last text) as Hl. rewrite last_lookup in Hl.
      unfold init in Hl, Hnext. cbn [linecounts] in Hl, Hnext.
      assert (Hle : c' <= Z.of_nat (String.length text) + 1).
      { eapply (count_lines_monotone _ _ (S k)); [|exact Hc'|exact Hl]. lia. }
      lia.
Qed.

Lemma decode_pos_locates_character_witness :
  let text := String.concat (String PyStr.newline "") ["ab"; "cde"] in
  decode_pos (init text) 4 = Return (2, 2) /\
  String.get 4 text = Some "d"%char /\
  decode_pos (init text) 2 = Return (1, 3) /\
  String.get 2 text = Some PyStr.newline.
Proof.
  intros text.
  destruct (decode_pos_locates_character text 4) as (k & line & Hl & Hd & _ & Hc & _);
    [vm_compute; split; discriminate|].
  repeat split; reflexivity.
Defined.

Lemma init_counts_le_last (text : string) :
  Forall (fun c => c <= Z.of_nat (String.length text) + 1)
    (linecounts (init text)).
Proof.
  apply Forall_lookup. intros j c Hj.
  pose proof (linecounts_last text) as Hl. rewrite last_lookup in Hl.
  pose proof (lookup_lt_Some _ _ _ Hj) as Hlt.
  unfold init in *. cbn [linecounts] in *.
  eapply (count_lines_monotone _ _ j); [|exact Hj|exact Hl]. lia.
Qed.

(** The order of two offsets that both have a count above them. *)
Lemma decode_pos_order (self : grammar) (p q : Z) :
  p <= q -> Exists (fun c => q < c) (linecounts self) ->
  exists a b,
    decode_pos self p = Return a /\
    decode_pos self q = Return b /\
    pos_le a b /\
    (p < q -> a <> b).
Proof.
  intros Hpq Hq.
  assert (Hp : Exists (fun c => p < c) (linecounts self)).
  { eapply Exists_impl; [exact Hq|]. intros c Hc. cbn in Hc. lia. }
  destruct (decode_pos_in_range self p Hp) as (kp & cp & Hkp & Hltp & Hbp & Hdp).
  destruct (decode_pos_in_range self q Hq) as (kq & cq & Hkq & Hltq & Hbq & Hdq).
  assert (Hk : (kp <= kq)%nat).
  { destruct (decide (kp <= kq)%nat) as [|Hn]; [assumption|].
    pose proof (Hbp kq cq ltac:(lia) Hkq). lia. }
  eexists _, _. split; [exact Hdp|]. split; [exact Hdq|].
  unfold pos_le. cbn [fst snd].
  destruct (decide (kp = kq)) as [->|Hne].
  - split; [right; split; lia|].
    intros Hlt [= Heq]. lia.
  - split; [left; lia|]. intros _ [= Heq _]. lia.
Qed.

(** X4.  Decoding keeps the order of offsets up to the end of the text: a
    smaller offset decodes to an earlier line, or to the same line and a
    smaller column, and two different offsets never decode to the same
    position. *)
Theorem decode_pos_monotone (text : string) (p q : Z) :
  p <= q -> q <= Z.of_nat (String.length text) ->
  exists a b,
    decode_pos (init text) p = Return a /\
    decode_pos (init text) q = Return b /\
    pos_le a b /\
    (p < q -> a <> b).
Proof.
  intros Hpq Hq. apply decode_pos_order; [exact Hpq|].
  apply init_in_range. exact Hq.
Qed.

Lemma decode_pos_monotone_witness :
  let text := String.concat (String PyStr.newline "") ["ab"; "cde"] in
  exists a b,
    decode_pos (init text) 1 = Return a /\
    decode_pos (init text) 4 = Return b /\
    pos_le a b /\ a <> b.
Proof.
  intros text.
  destruct (decode_pos_monotone text 1 4) as (a & b & Ha & Hb & Hle & Hne).
  - lia.
  - vm_compute. discriminate.
  - exists a, b. repeat split; try assumption. apply Hne. lia.
Defined.

(** X5.  Past the end of the text the loop of [decode_pos] finds no count
    to stop at: it reports the last line, and a column counted from the
    end of the text rather than from the start of that line. *)
Theorem decode_pos_beyond_text (text : string) (p : Z) :
  Z.of_nat (String.length text) < p ->
  decode_pos (init text) p =
    Return (Z.of_nat (S (count_char PyStr.newline text)),
            p - Z.of_nat (String.length text)).
Proof.
  intros Hp.
  assert (Hne : linecounts (init text) <> []).
  { intros Hnil. pose proof (linecounts_last text) as Hl.
    rewrite Hnil in Hl. discriminate. }
  assert (Hall : Forall (fun c => c <= p) (linecounts (init text))).
  { eapply Forall_impl; [apply init_counts_le_last|]. intros c Hc. cbn in Hc. lia. }
  rewrite (decode_pos_past_end _ p Hne Hall), linecounts_last.
  unfold init. cbn [linecounts]. rewrite count_lines_length, split_length.
  cbn [default]. f_equal. f_equal. unfold default, id. cbn. lia.
Qed.

Lemma decode_pos_beyond_text_witness :
  decode_pos (init "ab") 3 = Return (1, 1) /\
  decode_pos (init "ab") 2 = Return (1, 3).
Proof.
  split; [|reflexivity].
  apply (decode_pos_beyond_text "ab" 3). vm_compute. reflexivity.
Defined.

(** ** Boundaries *)

Lemma decode_pos_same_counts (self other : grammar) (p : Z) :
  linecounts self = linecounts other ->
  decode_pos self p = decode_pos other p.
Proof. intros H. unfold decode_pos. rewrite H. reflexivity. Qed.

Lemma boundaries_top (self : grammar) (stack : list Z) (top : Z) :
  curpos self = (stack ++ [top])%list ->
  boundaries self =
    (start ← decode_pos self top;
     stop ← decode_pos self (pos self - 1);
     Return (start, stop)).
Proof. intros H. unfold boundaries. rewrite H, last_snoc. reflexivity. Qed.

Lemma decode_pos_returns (self : grammar) (p : Z) :
  linecounts self <> [] -> exists r, decode_pos self p = Return r.
Proof.
  intros Hne.
  destruct (decide (Exists (fun c => p < c) (linecounts self))) as [Hex|Hno].
  - destruct (decode_pos_in_range self p Hex) as (k & count & _ & _ & _ & Hd).
    eauto.
  - apply not_Exists_Forall in Hno; [|intros c; apply _].
    assert (Hall : Forall (fun c => c <= p) (linecounts self)).
    { eapply Forall_impl; [exact Hno|]. intros c Hc. cbn in Hc. lia. }
    rewrite (decode_pos_past_end self p Hne Hall). eauto.
Qed.

(** X6.  [boundaries] fails with [IndexError] on an empty position stack.
    Otherwise it reads the most recently pushed offset only: on a grammar
    with line counts it returns the decoded top of the stack and the
    decoded offset before the current one, whatever lies deeper. *)
Theorem boundaries_top_of_stack (self : grammar) :
  (curpos self = [] -> boundaries self = Raise IndexError) /\
  (forall stack top,
     curpos self = (stack ++ [top])%list ->
     linecounts self <> [] ->
     exists start stop,
       decode_pos self top = Return start /\
       decode_pos self (pos self - 1) = Return stop /\
       boundaries self = Return (start, stop)).
Proof.
  split.
  - intros H. unfold boundaries. rewrite H. reflexivity.
  - intros stack top Hs Hne.
    destruct (decode_pos_returns self top Hne) as [start Hd1].
    destruct (decode_pos_returns self (pos self - 1) Hne) as [stop Hd2].
    exists start, stop. split; [exact Hd1|]. split; [exact Hd2|].
    rewrite (boundaries_top self stack top Hs), Hd1, Hd2. reflexivity.
Qed.

Lemma boundaries_top_of_stack_witness :
  boundaries (init "ab") = Raise IndexError /\
  boundaries (advance (push (push (init "ab") 7) 0) 2) =
    Return ((1, 1), (1, 2)).
Proof.
  split.
  - destruct (boundaries_top_of_stack (init "ab")) as [H _]. apply H. reflexivity.
  - reflexivity.
Defined.

(** X7.  While the parse is inside the text, a rule that has consumed at
    least one character gets boundaries whose start is not after its end;
    a rule that has consumed nothing gets an end that lies strictly before
    its start. *)
Theorem boundaries_ordered (text : string) (self : grammar)
    (stack : list Z) (top : Z) :
  linecounts self = linecounts (init text) ->
  curpos self = (stack ++ [top])%list ->
  top <= pos self <= Z.of_nat (String.length text) ->
  exists start stop,
    boundaries self = Return (start, stop) /\
    (top < pos self -> pos_le start stop) /\
    (top = pos self -> pos_le stop start /\ stop <> start).
Proof.
  intros Hc Hs [Htop Hpos].
  assert (Hin : forall p, p <= Z.of_nat (String.length text) ->
                          Exists (fun c => p < c) (linecounts self)).
  { intros p Hp. rewrite Hc. apply init_in_range. exact Hp. }
  rewrite (boundaries_top self stack top Hs).
  destruct (decode_pos_in_range self top (Hin top ltac:(lia)))
    as (k1 & c1 & _ & _ & _ & Hd1).
  destruct (decode_pos_in_range self (pos self - 1)
              (Hin (pos self - 1) ltac:(lia)))
    as (k2 & c2 & _ & _ & _ & Hd2).
  rewrite Hd1, Hd2. eexists _, _. split; [reflexivity|]. split.
  - intros Hlt.
    destruct (decode_pos_order self top (pos self - 1) ltac:(lia)
                (Hin (pos self - 1) ltac:(lia))) as (a & b & Ha & Hb & Hle & _).
    rewrite Hd1 in Ha. rewrite Hd2 in Hb.
    injection Ha as <-. injection Hb as <-. exact Hle.
  - intros Heq.
    destruct (decode_pos_order self (pos self - 1) top ltac:(lia)
                (Hin top ltac:(lia))) as (a & b & Ha & Hb & Hle & Hne).
    rewrite Hd2 in Ha. rewrite Hd1 in Hb.
    injection Ha as <-. injection Hb as <-.
    split; [exact Hle | apply Hne; lia].
Qed.

Lemma boundaries_ordered_witness :
  exists start stop,
    boundaries (advance (push (init "ab") 0) 2) = Return (start, stop) /\
    pos_le start stop.
Proof.
  destruct (boundaries_ordered "ab" (advance (push (init "ab") 0) 2) [] 0)
    as (start & stop & Hb & Hle & _).
  - reflexivity.
  - reflexivity.
  - vm_compute. split; discriminate.
  - exists start, stop. split; [exact Hb|]. apply Hle. vm_compute. reflexivity.
Defined.

(** ** What [emit] returns *)

Lemma emit_with_stamped (self : grammar) (fun_ : list value -> outcome value)
    (contents : list value) (ret : value) bounds :
  fun_ contents = Return ret ->
  boundaries self = Return bounds ->
  emit_with self fun_ contents =
    match set_span ret bounds with
    | Return ret' => Return ret'
    | Raise _ => Return ret
    end.
Proof.
  intros Hf Hb. unfold emit_with. rewrite Hf. cbn [mbind outcome_bind].
  rewrite Hb. cbn [mbind outcome_bind].
  destruct (set_span ret bounds) as [ret'|e] eqn:Hs; [reflexivity|].
  apply set_span_raises in Hs as ->. reflexivity.
Qed.

(** X8.  Inside a rule application, where the boundaries are available,
    [emit] returns what the constructor of the kind built, with the four
    boundary values as its source extent: a list model for [list], an
    expression model for [parens], the mangled symbol or integer for
    [identifier], which reads the first item only.  For [root] it returns
    the plain list, which takes no extent. *)
Theorem emit_stamps_models (self : grammar) (contents : list value)
    (sl sc el ec : Z) :
  boundaries self = Return ((sl, sc), (el, ec)) ->
  emit dispatch self "list" contents =
    Return (HyList contents (Some (Span sl sc el ec))) /\
  emit dispatch self "parens" contents =
    Return (HyExpression contents (Some (Span sl sc el ec))) /\
  emit dispatch self "root" contents = Return (PyList contents) /\
  (forall t rest,
     emit dispatch self "identifier" (PyStr t :: rest) =
       (v ← emit_symbol [t]; set_span v ((sl, sc), (el, ec)))) /\
  (forall t rest n,
     PyInt.parse t = Some n ->
     emit dispatch self "identifier" (PyStr t :: rest) =
       Return (HyInteger n (Some (Span sl sc el ec)))).
Proof.
  intros Hb.
  assert (Hid : forall t rest,
            emit dispatch self "identifier" (PyStr t :: rest) =
              (v ← emit_symbol [t]; set_span v ((sl, sc), (el, ec)))).
  { intros t rest. unfold emit.
    change (dispatch !! "identifier") with (Some emit_symbol_value).
    unfold emit_with. cbn [emit_symbol_value text_of].
    unfold emit_symbol.
    destruct (PyInt.parse t) as [n|];
      [cbn [mbind outcome_bind]; rewrite Hb; reflexivity|].
    destruct (table !! t) as [name|];
      cbn [mbind outcome_bind]; rewrite Hb; reflexivity. }
  repeat split.
  - unfold emit.
    change (dispatch !! "list")
      with (Some (fun contents : list value => Return (HyList contents None))).
    cbv beta iota.
    rewrite (emit_with_stamped self _ contents _ _ eq_refl Hb). reflexivity.
  - unfold emit.
    change (dispatch !! "parens")
      with (Some (fun contents : list value =>
                    Return (HyExpression contents None))).
    cbv beta iota.
    rewrite (emit_with_stamped self _ contents _ _ eq_refl Hb). reflexivity.
  - unfold emit.
    change (dispatch !! "root")
      with (Some (fun contents : list value => Return (PyList contents))).
    cbv beta iota.
    rewrite (emit_with_stamped self _ contents _ _ eq_refl Hb). reflexivity.
  - exact Hid.
  - intros t rest n Hn. rewrite Hid. unfold emit_symbol. rewrite Hn.
    reflexivity.
Qed.

Lemma emit_stamps_models_witness :
  emit dispatch (advance (push (init "(a b)") 0) 5) "parens"
    [HySymbol "a" None; HySymbol "b" None] =
    Return (HyExpression [HySymbol "a" None; HySymbol "b" None]
              (Some (Span 1 1 1 5))).
Proof.
  destruct (emit_stamps_models (advance (push (init "(a b)") 0) 5)
              [HySymbol "a" None; HySymbol "b" None] 1 1 1 5)
    as (_ & H & _); [reflexivity | exact H].
Defined.

(** X9.  Outside any rule application, with the position stack empty,
    [emit] never returns, whatever the table, the kind and the contents: a
    missing kind raises the lexer's exception, a failing constructor its
    own, and a constructor that returns is followed by the [IndexError] of
    reading the boundaries, which the handler for [AttributeError] lets
    through, for [root] as for any model. *)
Theorem emit_outside_rule (table : gmap string (list value -> outcome value))
    (self : grammar) (kind : string) (contents : list value) :
  curpos self = [] ->
  (exists e, emit table self kind contents = Raise e) /\
  (forall fun_ ret,
     table !! kind = Some fun_ -> fun_ contents = Return ret ->
     emit table self kind contents = Raise IndexError) /\
  emit dispatch self "root" contents = Raise IndexError.
Proof.
  intros Hs.
  assert (Hb : boundaries self = Raise IndexError)
    by (unfold boundaries; rewrite Hs; reflexivity).
  assert (Hret : forall fun_ ret,
            table !! kind = Some fun_ -> fun_ contents = Return ret ->
            emit table self kind contents = Raise IndexError).
  { intros fun_ ret Hf Hr. unfold emit, emit_with. rewrite Hf, Hr.
    cbn [mbind outcome_bind]. rewrite Hb. reflexivity. }
  split; [|split; [exact Hret|]].
  - destruct (table !! kind) as [fun_|] eqn:Hf.
    + destruct (fun_ contents) as [ret|e] eqn:Hr.
      * exists IndexError. eapply Hret; [reflexivity | exact Hr].
      * exists e. unfold emit, emit_with. rewrite Hf, Hr. reflexivity.
    + eexists. unfold emit. rewrite Hf. reflexivity.
  - unfold emit.
    change (dispatch !! "root")
      with (Some (fun contents : list value => Return (PyList contents))).
    unfold emit_with. cbn [mbind outcome_bind]. rewrite Hb. reflexivity.
Qed.

Lemma emit_outside_rule_witness :
  emit dispatch (init "a") "list" [] = Raise IndexError.
Proof.
  destruct (emit_outside_rule dispatch (init "a") "list" []) as (_ & H & _).
  - reflexivity.
  - apply (H (fun contents => Return (HyList contents None)) (HyList [] None));
      reflexivity.
Defined.

(** ** More on the symbol mangler *)

Lemma replace_removes (c d : ascii) (s : string) :
  c <> d -> PyStr.contains c (PyStr.replace c d s) = false.
Proof.
  intros Hcd. induction s as [|a s IH]; [reflexivity|].
  unfold PyStr.replace in *. cbn [PyStr.map_chars PyStr.contains].
  rewrite IH. destruct (Ascii.eqb_spec a c) as [->|Hac].
  - destruct (Ascii.eqb_spec d c); [congruence | reflexivity].
  - destruct (Ascii.eqb_spec a c); [congruence | reflexivity].
Qed.

Lemma mangle_dashes_no_dash (obj : string) :
  PyStr.contains PyStr.dash (mangle_dashes obj) = true ->
  mangle_dashes obj = "-".
Proof.
  unfold mangle_dashes.
  destruct (PyStr.contains PyStr.dash obj) eqn:Hc; cbn [andb].
  - destruct (String.eqb_spec obj "-") as [->|Hne]; cbn [negb].
    + reflexivity.
    + rewrite replace_removes by discriminate. discriminate.
  - rewrite Hc. discriminate.
Qed.

(** X10.  On contents that are not empty [emit_symbol] always returns, an
    integer or a symbol, looking at the first item only; a symbol's name
    holds no dash unless it is the lone dash.  Empty contents raise
    [IndexError]. *)
Theorem emit_symbol_names_have_no_dash (t : string) (rest : list string) :
  emit_symbol (t :: rest) = emit_symbol [t] /\
  ((exists n, emit_symbol (t :: rest) = Return (HyInteger n None)) \/
   (exists name,
      emit_symbol (t :: rest) = Return (HySymbol name None) /\
      (PyStr.contains PyStr.dash name = true -> name = "-"))) /\
  emit_symbol [] = Raise IndexError.
Proof.
  split; [reflexivity|]. split; [|reflexivity].
  unfold emit_symbol. destruct (PyInt.parse t) as [n|]; [left; eauto|].
  right. rewrite table_lookup.
  repeat case_bool_decide.
  - eexists. split; [reflexivity|]. cbn. discriminate.
  - eexists. split; [reflexivity|]. cbn. discriminate.
  - eexists. split; [reflexivity|]. cbn. discriminate.
  - eexists. split; [reflexivity|]. apply mangle_dashes_no_dash.
Qed.

Lemma endswith_snoc (s : string) (c : ascii) :
  PyStr.endswith (s ++ String c "") c = true.
Proof.
  induction s as [|a s IH]; [cbn; apply Ascii.eqb_refl|].
  change (String a s ++ String c "")%string
    with (String a (s ++ String c "")).
  destruct (s ++ String c "")%string as [|a0 s0] eqn:E;
    [destruct s; discriminate|].
  change (PyStr.endswith (String a (String a0 s0)) c)
    with (PyStr.endswith (String a0 s0) c).
  exact IH.
Qed.

Lemma drop_last_snoc (s : string) (c : ascii) :
  PyStr.drop_last (s ++ String c "") = s.
Proof.
  induction s as [|a s IH]; [reflexivity|].
  change (String a s ++ String c "")%string
    with (String a (s ++ String c "")).
  destruct (s ++ String c "")%string as [|a0 s0] eqn:E;
    [destruct s; discriminate|].
  change (PyStr.drop_last (String a (String a0 s0)))
    with (String a (PyStr.drop_last (String a0 s0))).
  rewrite IH. reflexivity.
Qed.

Lemma upper_char_not_lower (a : ascii) :
  lower_case (PyStr.upper_char a) = false.
Proof.
  destruct a as [[] [] [] [] [] [] [] []]; reflexivity.
Qed.

Lemma map_chars_Forall (f : ascii -> ascii) (P : ascii -> Prop) (s : string) :
  (forall a, P (f a)) ->
  Forall P (list_ascii_of_string (PyStr.map_chars f s)).
Proof.
  intros Hf. induction s as [|a s IH]; cbn; constructor; auto.
Qed.

Lemma mangle_dashes_keeps_case (s : string) :
  Forall (fun a => lower_case a = false) (list_ascii_of_string s) ->
  Forall (fun a => lower_case a = false)
    (list_ascii_of_string (mangle_dashes s)).
Proof.
  intros Hs. unfold mangle_dashes.
  destruct (PyStr.contains PyStr.dash s && negb (String.eqb s "-"));
    [|exact Hs].
  unfold PyStr.replace. induction s as [|a s IH]; [constructor|].
  cbn in *. inversion Hs as [|? ? Ha Hrest]; subst.
  constructor; [|apply IH; exact Hrest].
  destruct (Ascii.eqb a PyStr.dash); [reflexivity | exact Ha].
Qed.

(** X11.  A token written between two stars, whatever ASCII text lies
    between them, is never an integer or a reserved word: it comes out as
    the symbol of the text between the stars, upper-cased and then
    dash-mangled, so the name holds no lower-case letter; two stars alone
    give the empty name.  Text outside ASCII is left out: there the
    upper-casing modelled here is not Python's. *)
Theorem emit_symbol_earmuffed (s : string) :
  Forall (fun a => is_ascii a = true) (list_ascii_of_string s) ->
  emit_symbol [String "*" (s ++ "*")] =
    Return (HySymbol (mangle_dashes (PyStr.upper s)) None) /\
  Forall (fun a => lower_case a = false)
    (list_ascii_of_string (mangle_dashes (PyStr.upper s))) /\
  Forall (fun a => is_ascii a = true)
    (list_ascii_of_string (mangle_dashes (PyStr.upper s))) /\
  emit_symbol ["**"] = Return (HySymbol "" None).
Proof.
  intros Hascii. split; [|split; [|split; [|reflexivity]]].
  - rewrite emit_symbol_plain.
    + unfold unwrap_earmuffs. cbn [PyStr.startswith PyStr.slice_1_m1].
      change (PyStr.endswith (String "*" (s ++ "*")) PyStr.star)
        with (PyStr.endswith (String "*" s ++ String PyStr.star "") PyStr.star).
      rewrite endswith_snoc.
      change (s ++ "*")%string with (s ++ String PyStr.star "")%string.
      rewrite drop_last_snoc.
      replace (String.eqb (String "*" (s ++ String PyStr.star "")) "*")
        with false by (destruct s; reflexivity).
      reflexivity.
    + reflexivity.
    + apply table_miss; discriminate.
  - apply mangle_dashes_keeps_case. apply map_chars_Forall.
    apply upper_char_not_lower.
  - assert (Hup : Forall (fun a => is_ascii a = true)
                    (list_ascii_of_string (PyStr.upper s))).
    { unfold PyStr.upper. induction s as [|a s IH]; [constructor|].
      cbn in *. inversion Hascii as [|? ? Ha Hrest]; subst.
      constructor; [|apply IH; exact Hrest].
      revert Ha. destruct a as [[] [] [] [] [] [] [] []];
        try reflexivity; discriminate. }
    unfold mangle_dashes.
    destruct (PyStr.contains PyStr.dash (PyStr.upper s)
              && negb (String.eqb (PyStr.upper s) "-")); [|exact Hup].
    unfold PyStr.replace.
    induction (PyStr.upper s) as [|a u IH]; [constructor|].
    cbn in *. inversion Hup as [|? ? Ha Hrest]; subst.
    constructor; [|apply IH; exact Hrest].
    destruct (Ascii.eqb a PyStr.dash); [reflexivity | exact Ha].
Qed.

Lemma emit_symbol_earmuffed_witness :
  emit_symbol ["*max-depth*"] = Return (HySymbol "MAX_DEPTH" None).
Proof.
  destruct (emit_symbol_earmuffed "max-depth") as [H _].
  - cbn. repeat constructor.
  - exact H.
Defined.

(** ** More on dictionaries *)

(** X12.  Pairing loses nothing but a trailing unpaired item: laid out
    flat again, the pairs are the contents up to the last complete pair,
    which is all of them when the length is even. *)
Theorem zip_same_flatten {A : Type} (contents : list A) :
  flatten (zip_same (iter contents)) =
    take (2 * (length contents / 2)) contents /\
  (Nat.Even (length contents) ->
   flatten (zip_same (iter contents)) = contents).
Proof.
  assert (H : flatten (zip_same contents) =
              take (2 * (length contents / 2)) contents).
  { induction contents as [|a|a b l IH] using pair_ind; try reflexivity.
    change (length (a :: b :: l)) with (S (S (length l))).
    replace (S (S (length l))) with (length l + 1 * 2)%nat by lia.
    rewrite Nat.div_add by lia.
    replace (2 * (length l / 2 + 1))%nat with (S (S (2 * (length l / 2))))
      by lia.
    cbn [zip_same flatten flat_map fst snd app take firstn].
    fold (flatten (zip_same l)). rewrite IH. reflexivity. }
  unfold iter. split; [exact H|].
  intros [n Hn]. rewrite H, Hn.
  replace (2 * n)%nat with (n * 2)%nat at 1 by lia.
  rewrite Nat.div_mul by lia. rewrite <- Hn. apply firstn_all.
Qed.

Lemma zip_same_flatten_witness :
  flatten (zip_same (iter [1; 2; 3; 4])) = [1; 2; 3; 4].
Proof.
  destruct (zip_same_flatten [1; 2; 3; 4]) as [_ H].
  apply H. exists 2%nat. reflexivity.
Defined.

Section MoreDictFacts.
Context {K V : Type}.
Variable key_eq : K -> K -> bool.
Hypothesis key_eq_refl : forall k, key_eq k k = true.
Hypothesis key_eq_sym : forall k k', key_eq k k' = key_eq k' k.
Hypothesis key_eq_trans :
  forall k1 k2 k3, key_eq k1 k2 = true -> key_eq k2 k3 = true ->
                   key_eq k1 k3 = true.

Lemma getitem_fold_None (pairs d : list (K * V)) (k : K) :
  getitem key_eq (fold_left (step key_eq) pairs d) k = None <->
  getitem key_eq d k = None /\
  Forall (fun kv => key_eq (fst kv) k = false) pairs.
Proof.
  revert d. induction pairs as [|[k0 v0] rest IH]; intros d; cbn [fold_left].
  - split; [intros H; split; [exact H | constructor] | intros [H _]; exact H].
  - rewrite IH.
    assert (Hg : getitem key_eq (step key_eq d (k0, v0)) k =
                 if key_eq k0 k then Some v0 else getitem key_eq d k)
      by (unfold step; cbn [fst snd];
          apply (getitem_setitem key_eq key_eq_sym key_eq_trans)).
    rewrite Hg.
    rewrite Forall_cons. cbn [fst].
    destruct (key_eq k0 k); split; intros H.
    + destruct H as [H _]. discriminate.
    + destruct H as (_ & H & _). discriminate.
    + tauto.
    + tauto.
Qed.

Lemma filter_apart (f : K -> bool) (l : list K) :
  StronglySorted (fun a b => key_eq a b = false) l ->
  StronglySorted (fun a b => key_eq a b = false) (List.filter f l).
Proof.
  induction l as [|x l IH]; intros Hs; [constructor|].
  apply StronglySorted_cons in Hs as [Hall Hs]. cbn [List.filter].
  destruct (f x); [|auto].
  constructor; [auto|].
  rewrite Forall_forall in *. intros y Hy.
  apply Hall. apply list_elem_of_In in Hy.
  apply List.filter_In in Hy as [Hy _]. apply list_elem_of_In. exact Hy.
Qed.

Lemma distinct_apart (ks : list K) :
  StronglySorted (fun a b => key_eq a b = false) (distinct key_eq ks).
Proof.
  induction ks as [|k rest IH]; [constructor|].
  cbn [distinct]. constructor; [apply filter_apart; exact IH|].
  apply Forall_forall. intros y Hy. apply list_elem_of_In in Hy.
  apply List.filter_In in Hy as [_ Hy].
  destruct (key_eq k y); [discriminate | reflexivity].
Qed.
End MoreDictFacts.

(** X13.  With [==] an equivalence on keys, no two entries of the
    dictionary [emit_dict] builds have equal keys, and a key is missing
    from it exactly when no complete pair of the contents has a key equal
    to it. *)
Theorem emit_dict_keys {A R : Type} (key_eq : A -> A -> bool)
    (HyDict' : list (A * A) -> R) (contents : list A) :
  (forall k, key_eq k k = true) ->
  (forall k k', key_eq k k' = key_eq k' k) ->
  (forall k1 k2 k3, key_eq k1 k2 = true -> key_eq k2 k3 = true ->
                    key_eq k1 k3 = true) ->
  exists d,
    emit_dict key_eq HyDict' contents = Return (HyDict' d) /\
    StronglySorted (fun a b => key_eq a b = false) (map fst d) /\
    (forall k,
       getitem key_eq d k = None <->
       forall i ki vi,
         contents !! (2 * i)%nat = Some ki ->
         contents !! (2 * i + 1)%nat = Some vi ->
         key_eq ki k = false).
Proof.
  intros Hrefl Hsym Htrans.
  exists (dict key_eq (zip_same contents)).
  split; [reflexivity|]. split.
  - rewrite keys_dict by assumption. apply distinct_apart.
  - intros k. unfold dict.
    rewrite (getitem_fold_None key_eq Hsym Htrans).
    rewrite Forall_lookup. split.
    + intros [_ H] i ki vi Hki Hvi.
      apply (H i (ki, vi)). apply zip_same_lookup. auto.
    + intros H. split; [reflexivity|]. intros i [ki vi] Hi.
      apply zip_same_lookup in Hi as [Hki Hvi]. cbn [fst]. eauto.
Qed.

Lemma emit_dict_keys_witness :
  exists d,
    emit_dict Z.eqb (fun d => d) [1; 10; 2; 20; 1; 30; 4] = Return d /\
    getitem Z.eqb d 4 = None /\
    getitem Z.eqb d 2 = Some 20.
Proof.
  destruct (emit_dict_keys Z.eqb (fun d => d) [1; 10; 2; 20; 1; 30; 4])
    as (d & He & _ & Hmiss).
  - intros k. apply Z.eqb_refl.
  - intros k k'. apply Z.eqb_sym.
  - intros k1 k2 k3 H12 H23. apply Z.eqb_eq.
    apply Z.eqb_eq in H12. apply Z.eqb_eq in H23. lia.
  - exists d. split; [exact He|]. split.
    + apply Hmiss. intros i ki vi Hki Hvi.
      destruct i as [|[|[|i]]]; cbn in Hki; try (injection Hki as <-; reflexivity).
      replace (2 * S (S (S i)) + 1)%nat with (7 + 2 * i)%nat in Hvi by lia.
      cbn in Hvi. discriminate.
    + injection He as <-. reflexivity.
Defined.

Section FreshKeys.
Context {K V : Type}.
Variable key_eq : K -> K -> bool.

Lemma setitem_new (d : list (K * V)) (k : K) (v : V) :
  known key_eq (map fst d) k = false ->
  setitem key_eq d k v = (d ++ [(k, v)])%list.
Proof.
  induction d as [|[k0 v0] rest IH]; intros Hk; [reflexivity|].
  cbn in Hk. apply orb_false_iff in Hk as [H0 Hrest].
  cbn [setitem app]. rewrite H0, (IH Hrest). reflexivity.
Qed.

Lemma known_apart (acc : list K) (k : K) :
  Forall (fun a => key_eq a k = false) acc -> known key_eq acc k = false.
Proof.
  induction acc as [|a acc IH]; intros Hall; [reflexivity|].
  inversion Hall as [|? ? Ha Hrest]; subst.
  cbn. rewrite Ha. apply IH. exact Hrest.
Qed.

(** Pairs whose keys all differ are taken in one after the other. *)
Lemma fold_step_fresh (pairs : list (K * V)) :
  forall d,
  StronglySorted (fun a b => key_eq a b = false) (map fst (d ++ pairs)) ->
  fold_left (step key_eq) pairs d = (d ++ pairs)%list.
Proof.
  induction pairs as [|[k v] rest IH]; intros d Hs; cbn [fold_left].
  - rewrite app_nil_r. reflexivity.
  - assert (Hk : known key_eq (map fst d) k = false).
    { apply known_apart. apply Forall_forall. intros a Ha.
      rewrite map_app in Hs.
      eapply (StronglySorted_app_1_elem_of _ _ _ a k Hs); [exact Ha|].
      cbn. left. }
    unfold step at 2. cbn [fst snd]. rewrite (setitem_new d k v Hk).
    rewrite IH; rewrite <- app_assoc; [reflexivity | exact Hs].
Qed.
End FreshKeys.

(** X14.  When no key in key position equals an earlier one, the
    dictionary holds exactly the pairs of the contents, in input order,
    half the length of the contents of them. *)
Theorem emit_dict_fresh_keys {A R : Type} (key_eq : A -> A -> bool)
    (HyDict' : list (A * A) -> R) (contents : list A) :
  StronglySorted (fun a b => key_eq a b = false)
    (map fst (zip_same (iter contents))) ->
  emit_dict key_eq HyDict' contents =
    Return (HyDict' (zip_same (iter contents))) /\
  length (dict key_eq (zip_same (iter contents))) =
    (length contents / 2)%nat.
Proof.
  intros Hs. unfold emit_dict, dict.
  rewrite (fold_step_fresh key_eq _ [] Hs). cbn [app].
  split; [reflexivity | apply zip_same_length].
Qed.

Lemma emit_dict_fresh_keys_witness :
  emit_dict Z.eqb (fun d => d) [3; 30; 1; 10; 2; 20] =
    Return [(3, 30); (1, 10); (2, 20)].
Proof.
  apply (emit_dict_fresh_keys Z.eqb (fun d => d) [3; 30; 1; 10; 2; 20]).
  cbn. repeat constructor.
Defined.

(** ** More on the ordered set *)

Section MoreHySetFacts.
Context {T : Type} `{EqDecision T}.
Variable le : relation T.
Context `{!RelDecision le}.
Context `{!Total le} `{!Transitive le} `{!AntiSymm (=) le}.

Lemma HySet_sorted_le (items : list T) :
  StronglySorted le (HySet le items) /\ NoDup (HySet le items) /\
  (forall x, x ∈ HySet le items <-> x ∈ items).
Proof.
  unfold HySet.
  assert (Hs : StronglySorted le ([] ++ sorted le items))
    by (apply StronglySorted_merge_sort; assumption).
  destruct (fold_keep_sorted le (sorted le items) [] Hs (NoDup_nil_2))
    as (Hs' & Hnd & Hel).
  repeat split; try assumption.
  - intros Hx. apply Hel in Hx. cbn [app] in Hx. unfold sorted in Hx.
    rewrite merge_sort_Permutation in Hx. exact Hx.
  - intros Hx. apply Hel. cbn [app]. unfold sorted.
    rewrite merge_sort_Permutation. exact Hx.
Qed.

Lemma HySet_same_members (l l' : list T) :
  (forall x, x ∈ l <-> x ∈ l') -> HySet le l = HySet le l'.
Proof.
  intros Hmem.
  destruct (HySet_sorted_le l) as (Hs & Hnd & Hel).
  destruct (HySet_sorted_le l') as (Hs' & Hnd' & Hel').
  apply (StronglySorted_unique le); try assumption.
  apply NoDup_Permutation; try assumption.
  intros x. rewrite Hel, Hel'. apply Hmem.
Qed.
End MoreHySetFacts.

(** X15.  Under a decidable total order the list a [HySet] holds depends
    on the members of the input only: inputs with the same members, in
    whatever order and however often repeated, give the same set; making a
    set of a set changes nothing. *)
Theorem HySet_canonical {T : Type} `{EqDecision T} (le : relation T)
    `{!RelDecision le} (items items' : list T) :
  Total le -> Transitive le -> AntiSymm (=) le ->
  ((forall x, x ∈ items <-> x ∈ items') -> HySet le items = HySet le items') /\
  (items ≡ₚ items' -> HySet le items = HySet le items') /\
  HySet le (HySet le items) = HySet le items /\
  HySet le (items ++ items) = HySet le items.
Proof.
  intros Htotal Htrans Hanti. repeat split.
  - apply HySet_same_members; assumption.
  - intros Hp. apply HySet_same_members; try assumption.
    intros x. rewrite Hp. reflexivity.
  - apply HySet_same_members; try assumption.
    intros x. apply (HySet_sorted_le le items).
  - apply HySet_same_members; try assumption.
    intros x. rewrite elem_of_app. tauto.
Qed.

Lemma HySet_canonical_witness :
  HySet Z.le [2; 1; 2; 3] = HySet Z.le [3; 3; 2; 1] /\
  HySet Z.le (HySet Z.le [2; 1; 2; 3]) = HySet Z.le [2; 1; 2; 3].
Proof.
  destruct (HySet_canonical Z.le [2; 1; 2; 3] [3; 3; 2; 1])
    as (H & _ & Hidem & _).
  - intros x y. lia.
  - intros x y z Hxy Hyz. lia.
  - intros x y Hxy Hyx. lia.
  - split; [|exact Hidem]. apply H. intros x.
    rewrite !elem_of_cons, !elem_of_nil. tauto.
Defined.

(** X16.  A [HySet] never holds more elements than it was given, and it
    holds as many exactly when the input has no duplicates, in which case
    it is a rearrangement of the input. *)
Theorem HySet_length {T : Type} `{EqDecision T} (le : relation T)
    `{!RelDecision le} (items : list T) :
  Total le -> Transitive le -> AntiSymm (=) le ->
  (length (HySet le items) <= length items)%nat /\
  (NoDup items <-> length (HySet le items) = length items) /\
  (NoDup items -> HySet le items ≡ₚ items).
Proof.
  intros Htotal Htrans Hanti.
  destruct (HySet_sorted_le le items) as (Hs & Hnd & Hel).
  assert (Hsub : HySet le items ⊆+ items).
  { apply NoDup_submseteq; [exact Hnd|]. intros x. apply Hel. }
  assert (Hperm : NoDup items -> HySet le items ≡ₚ items).
  { intros Hni. apply NoDup_Permutation; assumption. }
  split; [apply submseteq_length; exact Hsub|]. split; [split|exact Hperm].
  - intros Hni. rewrite (Hperm Hni). reflexivity.
  - intros Hlen.
    apply submseteq_length_Permutation in Hsub; [|lia].
    rewrite <- Hsub. exact Hnd.
Qed.

Lemma HySet_length_witness :
  (length (HySet Z.le [4; 4; 1]%Z) <= 3)%nat /\
  HySet Z.le [4; 0; 1] ≡ₚ [4; 0; 1].
Proof.
  split.
  - destruct (HySet_length Z.le [4; 4; 1]) as (H & _).
    + intros x y. lia.
    + intros x y z Hxy Hyz. lia.
    + intros x y Hxy Hyx. lia.
    + exact H.
  - destruct (HySet_length Z.le [4; 0; 1]) as (_ & _ & H).
    + intros x y. lia.
    + intros x y z Hxy Hyz. lia.
    + intros x y Hxy Hyx. lia.
    + apply H. repeat constructor; rewrite ?elem_of_cons, ?elem_of_nil; lia.
Defined.

(** ** More on rule application and on the first line *)

(** X17.  Whatever the body of a rule application does, the [finally]
    clause pops the top of the position stack once: the body's result or
    exception is passed on, the input stays where the body left it, and
    the stack loses its last entry, be it the pushed one or not.  A body
    that leaves the stack empty makes the pop itself fail, and its
    [IndexError] replaces the body's outcome. *)
Theorem apply_around_any_body (body : grammar -> outcome value * grammar)
    (self inside : grammar) (ret : outcome value) :
  body (push self (pos self)) = (ret, inside) ->
  (forall stack x,
     curpos inside = (stack ++ [x])%list ->
     exists after,
       apply_around body self = (ret, after) /\
       curpos after = stack /\
       input after = input inside /\
       linecounts after = linecounts inside) /\
  (curpos inside = [] ->
   apply_around body self = (Raise IndexError, inside)).
Proof.
  intros Hbody. split.
  - intros stack x Hs.
    destruct (pop_top inside stack x Hs) as (after & Hpop & Hc & Hi & Hl).
    exists after. unfold apply_around. rewrite Hbody, Hpop. auto.
  - intros Hs. unfold apply_around. rewrite Hbody.
    unfold pop. rewrite Hs. reflexivity.
Qed.

Lemma apply_around_any_body_witness :
  exists after,
    apply_around (fun g => (Raise TypeError, advance g 1)) (init "ab") =
      (Raise TypeError, after) /\
    curpos after = [] /\
    input after = InputStream "ab" 1.
Proof.
  destruct (apply_around_any_body (fun g => (Raise TypeError, advance g 1))
              (init "ab") (advance (push (init "ab") 0) 1) (Raise TypeError))
    as [H _]; [reflexivity|].
  destruct (H [] 0) as (after & Ha & Hc & Hi & _); [reflexivity|].
  exists after. split; [exact Ha|]. split; [exact Hc|]. rewrite Hi. reflexivity.
Defined.

(** X18.  Every offset before the end of the first line, negative ones
    included, decodes to line one with the offset plus one as column; the
    offset before the start of the text, which is the end [boundaries]
    computes while nothing has been consumed, decodes to column zero. *)
Theorem decode_pos_first_line (text : string) (p : Z) :
  p <= Z.of_nat (String.length
                   (default "" (head (PyStr.split PyStr.newline text)))) ->
  decode_pos (init text) p = Return (1, p + 1) /\
  decode_pos (init text) (-1) = Return (1, 0).
Proof.
  intros Hp.
  pose proof (split_nonempty PyStr.newline text) as Hne.
  assert (H : forall q,
            q <= Z.of_nat (String.length
                             (default "" (head (PyStr.split PyStr.newline text)))) ->
            decode_pos (init text) q = Return (1, q + 1)).
  { intros q Hq. unfold init, decode_pos. cbn [linecounts].
    destruct (PyStr.split PyStr.newline text) as [|line rest]; [congruence|].
    cbn [head default] in Hq. unfold default, id in Hq.
    cbn [count_lines decode_loop].
    destruct (Z.ltb_spec q (0 + (Z.of_nat (String.length line) + 1))); [|lia].
    f_equal. f_equal; lia. }
  split; [apply H; exact Hp|].
  apply (H (-1)). lia.
Qed.

Lemma decode_pos_first_line_witness :
  decode_pos (init "ab") (-3) = Return (1, -2).
Proof.
  apply (decode_pos_first_line "ab" (-3)). vm_compute. discriminate.
Defined.

(** ** The position stack as rule bodies see it *)

(** An [emit] for a list, run in a state whose stack ends with [top]. *)
Lemma emit_list_spans (self : grammar) (stack : list Z) (top : Z)
    (contents : list value) :
  curpos self = (stack ++ [top])%list ->
  linecounts self <> [] ->
  exists start stop,
    decode_pos self top = Return start /\
    decode_pos self (pos self - 1) = Return stop /\
    emit dispatch self "list" contents =
      Return (HyList contents
                (Some (Span (fst start) (snd start) (fst stop) (snd stop)))).
Proof.
  intros Hs Hne.
  destruct (decode_pos_returns self top Hne) as [[sl sc] Hd1].
  destruct (decode_pos_returns self (pos self - 1) Hne) as [[el ec] Hd2].
  exists (sl, sc), (el, ec). split; [exact Hd1|]. split; [exact Hd2|].
  assert (Hb : boundaries self = Return ((sl, sc), (el, ec)))
    by (rewrite (boundaries_top self stack top Hs), Hd1, Hd2; reflexivity).
  unfold emit.
  change (dispatch !! "list")
    with (Some (fun contents : list value => Return (HyList contents None))).
  cbv beta iota.
  rewrite (emit_with_stamped self _ contents _ _ eq_refl Hb). reflexivity.
Qed.

(** C7.  An application pushes the current offset, runs the body on the
    stack so extended, and pops once when the body is done, whatever the
    body's outcome: the body ends with the pushed offset on top, so the pop
    removes exactly that offset and the stack is back to what it was, with
    its length unchanged.  A body that raises is popped for all the same
    and its exception goes on.  The push is what the body's semantic
    actions see: after any body [r], nested applications included, an
    [emit] in the same application gets the offset at which the
    application was entered as the start of its extent, also from an empty
    stack, on which the same action run outside an application fails. *)
Theorem apply_balances_position_stack (r : rule) (self : grammar) :
  (let entered := push self (pos self) in
   let '(ret, inside) := run r entered in
   curpos entered = (curpos self ++ [pos self])%list /\
   curpos inside = (curpos self ++ [pos self])%list /\
   last (curpos inside) = Some (pos self) /\
   (exists after,
      pop inside = Some after /\
      _apply r self = (ret, after) /\
      curpos after = curpos self /\
      input after = input inside) /\
   length (curpos (snd (_apply r self))) = length (curpos self) /\
   (forall e, exists after,
      _apply (Fail e) self = (Raise e, after) /\ curpos after = curpos self)) /\
  (forall contents v inside,
     run r (push self (pos self)) = (Return v, inside) ->
     linecounts self <> [] ->
     exists start stop after,
       decode_pos self (pos self) = Return start /\
       decode_pos self (pos inside - 1) = Return stop /\
       _apply (Seq r (Emit "list" contents)) self =
         (Return (HyList contents
                    (Some (Span (fst start) (snd start)
                             (fst stop) (snd stop)))), after) /\
       curpos after = curpos self) /\
  (forall contents,
     curpos self = [] ->
     run (Emit "list" contents) self = (Raise IndexError, self)).
Proof.
  split; [|split].
  - intros entered.
    pose proof (run_balanced r entered) as Hin.
    destruct (run r entered) as [ret inside] eqn:Hrun. cbn [snd] in Hin.
    assert (He : curpos entered = (curpos self ++ [pos self])%list)
      by reflexivity.
    rewrite He in Hin.
    destruct (pop_top inside (curpos self) (pos self) Hin)
      as (after & Hpop & Hc & Hi & _).
    assert (Happly : _apply r self = (ret, after)).
    { unfold _apply, apply_around. fold entered. rewrite Hrun, Hpop.
      reflexivity. }
    split; [exact He|]. split; [exact Hin|]. split; [|split; [|split]].
    + rewrite Hin. apply last_snoc.
    + exists after. auto.
    + rewrite Happly. cbn [snd]. rewrite Hc. reflexivity.
    + intros e. unfold _apply, apply_around. cbn [run].
      rewrite pop_push. eexists. split; reflexivity.
  - intros contents v inside Hrun Hne.
    pose proof (run_balanced r (push self (pos self))) as Hin.
    pose proof (run_linecounts r (push self (pos self))) as Hl.
    rewrite Hrun in Hin, Hl. cbn [snd push curpos linecounts] in Hin, Hl.
    assert (Hne' : linecounts inside <> []) by (rewrite Hl; exact Hne).
    destruct (emit_list_spans inside (curpos self) (pos self) contents Hin Hne')
      as (start & stop & Hd1 & Hd2 & Hemit).
    destruct (pop_top inside (curpos self) (pos self) Hin)
      as (after & Hpop & Hc & _).
    exists start, stop, after.
    rewrite <- (decode_pos_same_counts inside self _ Hl).
    rewrite <- (decode_pos_same_counts inside self (pos inside - 1) Hl).
    split; [exact Hd1|]. split; [exact Hd2|]. split; [|exact Hc].
    unfold _apply, apply_around. cbn [run]. rewrite Hrun, Hemit, Hpop.
    reflexivity.
  - intros contents Hs. cbn [run]. f_equal.
    unfold emit.
    change (dispatch !! "list")
      with (Some (fun contents : list value => Return (HyList contents None))).
    unfold emit_with. cbn [mbind outcome_bind].
    unfold boundaries. rewrite Hs. reflexivity.
Qed.

Lemma apply_balances_position_stack_witness :
  let inner := Apply (Seq (Token 1 (PyStr "a"))
                        (Emit "identifier" [PyStr "a"])) in
  let body := Seq (Token 1 (PyStr "(")) (Seq inner (Token 1 (PyStr ")"))) in
  exists after,
    _apply (Seq body (Emit "list" [HySymbol "a" (Some (Span 1 2 1 2))]))
      (init "(a)") =
      (Return (HyList [HySymbol "a" (Some (Span 1 2 1 2))]
                 (Some (Span 1 1 1 3))), after) /\
    curpos after = [] /\
    fst (run inner (advance (push (init "(a)") 0) 1)) =
      Return (HySymbol "a" (Some (Span 1 2 1 2))).
Proof.
  intros inner body.
  destruct (apply_balances_position_stack body (init "(a)")) as (_ & H & _).
  destruct (H [HySymbol "a" (Some (Span 1 2 1 2))] (PyStr ")")
              (advance (push (init "(a)") 0) 3))
    as (start & stop & after & Hd1 & Hd2 & Ha & Hc);
    [reflexivity | discriminate |].
  vm_compute in Hd1. injection Hd1 as <-.
  vm_compute in Hd2. injection Hd2 as <-.
  exists after. split; [exact Ha|]. split; [exact Hc | reflexivity].
Defined.
